(** * The dice roller of dice-roller-app/script.js

    The script is one closure holding five functions: [generateDiceNumber],
    [generateDiceNumbers], [displayDiceNumbers], [rollDice] and [resetDice].
    They read and write two page elements (the dice container and the count
    input) and call the host for random samples, numeric coercion, array
    construction and number printing.

    The embedding keeps that shape: the host operations the script relies
    on are in [Host] (the coercion of a length, the array length limit,
    the binary64 product, number printing), the page and the count of
    consumed random samples are the [World], and every function of the
    script is a computation in a small state-and-exception monad [JS].
    What Math.random and StringToNumber answer is left to the host: the
    development is a section over both.

    Two more scripts of the repository come first, each with its
    definitions in a module of its own and its facts at the end of the
    file: the Base64 checks of vector/script.js, as regular expressions
    with a matcher, and the modal of Modal_popup/script.js, as the two
    flags its click handlers set.  The memoized fibonacci of
    TypescriptSamples/examples/05-decorators.ts follows the host
    operations, whose number printing it shares. *)

From Stdlib Require Import ZArith QArith Qround String Ascii List Lia Bool.
From Stdlib Require Import DecimalString DecimalPos DecimalZ NArith.
Import ListNotations.

Local Open Scope Z_scope.

(** * The Base64 checks of vector/script.js *)

Module Base64.

(** A String, by its UTF-16 code units. *)
Definition codeUnits : Type := list N.

Definition unitsOf (s : string) : codeUnits :=
  map N_of_ascii (list_ascii_of_string s).

(** The patterns the three regular expressions are built from; [Never]
    matches no string and only shows up while matching. *)
Inductive pattern : Type :=
| Never
| Empty
| Char (c : ascii)
| Class (ranges : list (ascii * ascii))
| Seq (p q : pattern)
| Alt (p q : pattern)
| Star (p : pattern).

(** p{n} *)
Fixpoint Repeat (n : nat) (p : pattern) : pattern :=
  match n with
  | O => Empty
  | S n' => Seq p (Repeat n' p)
  end.

(** p? *)
Definition Optional (p : pattern) : pattern := Alt p Empty.

(** p+ *)
Definition Plus (p : pattern) : pattern := Seq p (Star p).

(** p{0,2} *)
Definition UpToTwo (p : pattern) : pattern := Optional (Seq p (Optional p)).

Definition inRange (u : N) (range : ascii * ascii) : bool :=
  (N_of_ascii (fst range) <=? u)%N && (u <=? N_of_ascii (snd range))%N.

Definition inClass (ranges : list (ascii * ascii)) (u : N) : bool :=
  existsb (inRange u) ranges.

(** Whether a pattern matches the empty string. *)
Fixpoint nullable (p : pattern) : bool :=
  match p with
  | Never => false
  | Empty => true
  | Char _ => false
  | Class _ => false
  | Seq p q => nullable p && nullable q
  | Alt p q => nullable p || nullable q
  | Star _ => true
  end.

(** What is left to match of a pattern once the code unit [u] is read. *)
Fixpoint after (u : N) (p : pattern) : pattern :=
  match p with
  | Never => Never
  | Empty => Never
  | Char c => if (N_of_ascii c =? u)%N then Empty else Never
  | Class ranges => if inClass ranges u then Empty else Never
  | Seq p q =>
      if nullable p then Alt (Seq (after u p) q) (after u q)
      else Seq (after u p) q
  | Alt p q => Alt (after u p) (after u q)
  | Star p => Seq (after u p) (Star p)
  end.

(** /^p$/.test(s): the whole of [s] matches [p]. *)
Definition test (p : pattern) (s : codeUnits) : bool :=
  nullable (fold_left (fun q u => after u q) s p).

(** [A-Za-z0-9+/] *)
Definition base64Char : pattern :=
  Class [("A", "Z"); ("a", "z"); ("0", "9"); ("+", "+"); ("/", "/")]%char.

(** [A-Za-z0-9+\/]{2}== and [A-Za-z0-9+\/]{3}= *)
Definition twoPadded : pattern :=
  Seq (Repeat 2 base64Char) (Seq (Char "=") (Char "=")).

Definition onePadded : pattern :=
  Seq (Repeat 3 base64Char) (Char "=").

Definition isValidBase64 (base64String : codeUnits) : bool :=
  let regex :=
    Seq (Star (Repeat 4 base64Char)) (Optional (Alt twoPadded onePadded)) in
  test regex base64String.

Definition isBase64 (value : codeUnits) : bool :=
  test (Seq (Star (Repeat 4 base64Char))
            (Alt twoPadded (Alt onePadded (Repeat 4 base64Char))))
       value.

Definition isPartOfBase64 (str : codeUnits) : bool :=
  (N.of_nat (length str) mod 4 =? 0)%N
  && test (Seq (Plus base64Char) (UpToTwo (Class [("=", "=")]%char))) str.

(** What the patterns say: the strings a pattern matches. *)
Inductive Matches : pattern -> codeUnits -> Prop :=
| MEmpty : Matches Empty []
| MChar c : Matches (Char c) [N_of_ascii c]
| MClass ranges u : inClass ranges u = true -> Matches (Class ranges) [u]
| MSeq p q s t : Matches p s -> Matches q t -> Matches (Seq p q) (s ++ t)
| MAltL p q s : Matches p s -> Matches (Alt p q) s
| MAltR p q s : Matches q s -> Matches (Alt p q) s
| MStarNil p : Matches (Star p) []
| MStarApp p s t : Matches p s -> Matches (Star p) t -> Matches (Star p) (s ++ t).

(** A Base64 character, and a well-formed Base64 text: characters of the
    alphabet followed by no, one or two padding signs, a multiple of four
    in all. *)
Definition isBase64Char (u : N) : Prop :=
  inClass [("A", "Z"); ("a", "z"); ("0", "9"); ("+", "+"); ("/", "/")]%char u
  = true.

Definition padSign : N := N_of_ascii "=".

Definition isPadding (pad : codeUnits) : Prop :=
  pad = [] \/ pad = [padSign] \/ pad = [padSign; padSign].

Definition wellFormed (s : codeUnits) : Prop :=
  (exists groups, length s = 4 * groups)%nat
  /\ exists body pad,
       s = body ++ pad /\ Forall isBase64Char body /\ isPadding pad.

(** The last group of a text: two characters and two padding signs,
    three characters and one padding sign, or four characters. *)
Definition isLastGroup (t : codeUnits) : Prop :=
  Matches twoPadded t \/ Matches onePadded t
  \/ Matches (Repeat 4 base64Char) t.

End Base64.

(** * The modal of Modal_popup/script.js *)

Module Modal.

(** The two flags the script reads and writes: [backdrop[0].hidden] and
    [popup[0].hidden], on a page that has both elements and the button. *)
Record Page : Type := mkPage {
  backdrop_hidden : bool;
  popup_hidden : bool
}.

(** The click event a handler receives, as far as the script uses it:
    whether its propagation has been stopped. *)
Record Event : Type := mkEvent {
  propagationStopped : bool
}.

(** document.onclick *)
Definition document_onclick (e : Event) (page : Page) : Event * Page :=
  if negb (backdrop_hidden page)
  then (e, {| backdrop_hidden := true; popup_hidden := true |})
  else (e, page).

(** btn.onclick, with e.stopPropagation() as its last statement. *)
Definition btn_onclick (e : Event) (page : Page) : Event * Page :=
  ({| propagationStopped := true |},
   {| backdrop_hidden := false; popup_hidden := false |}).

(** Where the user clicks: on the button, or anywhere else in the
    document. *)
Inductive target : Type :=
| on_button
| elsewhere.

(** A click is handled at its target and then bubbles up to the
    document, unless a handler has stopped its propagation. *)
Definition click (t : target) (page : Page) : Page :=
  let e := {| propagationStopped := false |} in
  let (e', page') :=
    match t with
    | on_button => btn_onclick e page
    | elsewhere => (e, page)
    end in
  if propagationStopped e' then page' else snd (document_onclick e' page').

Definition clicks (ts : list target) (page : Page) : Page :=
  fold_left (fun page' t => click t page') ts page.

(** The modal is shown when neither the backdrop nor the popup is
    hidden, and closed when both are. *)
Definition shown (page : Page) : Prop :=
  backdrop_hidden page = false /\ popup_hidden page = false.

Definition closed (page : Page) : Prop :=
  backdrop_hidden page = true /\ popup_hidden page = true.

End Modal.

(** * The dice roller *)

(** ** Host operations (ECMAScript abstract operations) *)

Module Host.

(** A Number as the coercions of a length see it: a finite one by the
    rational it denotes, and the three values that are not finite. *)
Inductive number : Type :=
| NaN
| Infinity (negative : bool)
| Finite (q : Q).

(** The values the script hands to [Array.from] as a length: a Number,
    or the String read from the input field. *)
Inductive value : Type :=
| Num (x : number)
| Str (s : string).

Inductive exn : Type :=
| RangeError.

(** An integral Number or one of the infinities. *)
Inductive integerOrInfinity : Type :=
| Int (z : Z)
| PlusInfinity
| MinusInfinity.

(** truncate(x): the integer part of [q], rounding toward zero. *)
Definition truncate (q : Q) : Z := Z.quot (Qnum q) (Zpos (Qden q)).

(** ToIntegerOrInfinity on a Number: NaN becomes 0. *)
Definition ToIntegerOrInfinity (x : number) : integerOrInfinity :=
  match x with
  | NaN => Int 0
  | Infinity false => PlusInfinity
  | Infinity true => MinusInfinity
  | Finite q => Int (truncate q)
  end.

Definition maxSafeInteger : Z := 2 ^ 53 - 1.

(** ToLength: non-positive lengths become 0, the rest is capped at
    2^53 - 1. *)
Definition ToLength (x : number) : Z :=
  match ToIntegerOrInfinity x with
  | Int len => if len <=? 0 then 0 else Z.min len maxSafeInteger
  | PlusInfinity => maxSafeInteger
  | MinusInfinity => 0
  end.

(** The largest length the Array constructor accepts. *)
Definition maxArrayLength : Z := 2 ^ 32 - 1.

(** Number.isSafeInteger, on integers. *)
Definition isSafeInteger (n : Z) : Prop := Z.abs n <= maxSafeInteger.

(** Number::toString in radix 10 on an integral Number; for safe
    integers it is the plain decimal numeral, with a leading minus sign
    below zero. *)
Definition NumberToString (n : Z) : string :=
  NilZero.string_of_int (Z.to_int n).

(** Math.floor on a finite Number, by the rational it denotes. *)
Definition Math_floor (q : Q) : Z := Qfloor q.

(** A finite binary64 Number that is not negative, by an integral
    significand and a binary exponent: the number significand * 2^exponent,
    with at most 53 significant bits and no exponent below that of the
    subnormal numbers. *)
Record binary64 : Type := mkBinary64 {
  significand : Z;
  exponent : Z
}.

Definition isBinary64 (x : binary64) : Prop :=
  0 <= significand x < 2 ^ 53 /\ -1074 <= exponent x <= 971.

(** The rational a binary64 number denotes. *)
Definition valueOf (x : binary64) : Q :=
  if 0 <=? exponent x
  then inject_Z (significand x * 2 ^ exponent x)
  else (significand x # Z.to_pos (2 ^ (- exponent x)))%Q.

(** An integer literal of the script as a Number. *)
Definition ofInteger (n : Z) : binary64 := mkBinary64 n 0.

(** [p / 2^s] rounded to the nearest integer, a tie going to the even
    one. *)
Definition roundShift (p s : Z) : Z :=
  if s <=? 0 then p
  else
    let d := p / 2 ^ s in
    let rem := p mod 2 ^ s in
    let half := 2 ^ (s - 1) in
    if rem <? half then d
    else if half <? rem then d + 1
    else if Z.even d then d else d + 1.

(** Number::multiply on such numbers, below the overflow threshold: the
    exact product of the significands is rounded to 53 bits, or to the
    bits left above the smallest exponent, ties to even. *)
Definition Number_multiply (x y : binary64) : binary64 :=
  let p := significand x * significand y in
  let e := exponent x + exponent y in
  let s := Z.max (Z.max 0 (Z.log2 p + 1 - 53)) (-1074 - e) in
  let q := roundShift p s in
  if q =? 2 ^ 53 then mkBinary64 (2 ^ 52) (e + s + 1) else mkBinary64 q (e + s).

(** Array.prototype.join on an array of strings. *)
Definition join (sep : string) (l : list string) : string :=
  String.concat sep l.

Definition isNaN (x : number) : Prop := x = NaN.

(** A Number below zero. *)
Definition negative (x : number) : Prop :=
  match x with
  | NaN => False
  | Infinity neg => neg = true
  | Finite q => (q < 0)%Q
  end.

(** A Number that is zero or below. *)
Definition nonPositive (x : number) : Prop :=
  match x with
  | NaN => False
  | Infinity neg => neg = true
  | Finite q => (q <= 0)%Q
  end.

End Host.

Import Host.

(** * The memoized fibonacci of TypescriptSamples/examples/05-decorators.ts *)

Module Memoize.

(** The Map the decorator creates, with string keys and its entries in
    insertion order.  [Map_get] answers [None] where cache.has(key) is
    false. *)
Definition Map : Type := list (string * Z).

Fixpoint Map_get (cache : Map) (key : string) : option Z :=
  match cache with
  | [] => None
  | (k, v) :: rest => if String.eqb k key then Some v else Map_get rest key
  end.

Fixpoint Map_set (cache : Map) (key : string) (value : Z) : Map :=
  match cache with
  | [] => [(key, value)]
  | (k, v) :: rest =>
      if String.eqb k key then (k, value) :: rest
      else (k, v) :: Map_set rest key value
  end.

(** The two lines the wrapper writes to the console. *)
Inductive line : Type :=
| CacheHit (propertyKey key : string)
| CacheMiss (propertyKey key : string).

Definition text (l : line) : string :=
  match l with
  | CacheHit propertyKey key =>
      "Cache hit for " ++ propertyKey ++ "(" ++ key ++ ")"
  | CacheMiss propertyKey key =>
      "Cache miss for " ++ propertyKey ++ "(" ++ key ++ ")"
  end.

(** The cache of the decorated method and what has been logged, oldest
    line first. *)
Record State : Type := mkState {
  cache : Map;
  console : list line
}.

Definition console_log (l : line) (s : State) : State :=
  {| cache := cache s; console := console s ++ [l] |}.

Definition cache_set (key : string) (value : Z) (s : State) : State :=
  {| cache := Map_set (cache s) key value; console := console s |}.

(** JSON.stringify on an array of integral Numbers. *)
Definition JSON_stringify (args : list Z) : string :=
  "[" ++ join "," (map NumberToString args) ++ "]".

(** A method of one integral argument.  It answers [None] when the calls
    nest deeper than the depth the model was given. *)
Definition method : Type := Z -> State -> option (Z * State).

(** memoize, by the function it stores in descriptor.value. *)
Definition memoize (propertyKey : string) (originalMethod : method) : method :=
  fun n s =>
    let key := JSON_stringify [n] in
    match Map_get (cache s) key with
    | Some cached =>
        Some (cached, console_log (CacheHit propertyKey key) s)
    | None =>
        match originalMethod n (console_log (CacheMiss propertyKey key) s) with
        | Some (result, s') => Some (result, cache_set key result s')
        | None => None
        end
    end.

(** The body of MathOperations.fibonacci; [this_fibonacci] is the method
    that this.fibonacci resolves to. *)
Definition fibonacci (this_fibonacci : method) : method :=
  fun n s =>
    if n <=? 1 then Some (n, s)
    else
      match this_fibonacci (n - 1) s with
      | Some (a, s1) =>
          match this_fibonacci (n - 2) s1 with
          | Some (b, s2) => Some (a + b, s2)
          | None => None
          end
      | None => None
      end.

(** MathOperations.prototype.fibonacci once the class is defined: the
    decorated method, whose body calls the decorated method. *)
Fixpoint MathOperations_fibonacci (depth : nat) : method :=
  match depth with
  | O => fun _ _ => None
  | S depth' => memoize "fibonacci" (fibonacci (MathOperations_fibonacci depth'))
  end.

(** The state right after the class is defined. *)
Definition fresh : State := {| cache := []; console := [] |}.

(** The Fibonacci numbers, two neighbours at a time. *)
Fixpoint fib_pair (n : nat) : Z * Z :=
  match n with
  | O => (0, 1)
  | S m => let (a, b) := fib_pair m in (b, a + b)
  end.

Definition fib (n : nat) : Z := fst (fib_pair n).

(** What the undecorated body computes at an integer: the argument itself
    up to 1, the Fibonacci number above. *)
Definition fibonacci_value (n : Z) : Z :=
  if n <=? 1 then n else fib (Z.to_nat n).

(** Every entry of the cache holds the value of its argument. *)
Definition cacheSound (c : Map) : Prop :=
  forall n v, Map_get c (JSON_stringify [n]) = Some v -> v = fibonacci_value n.

(** A later state keeps every entry of the cache and every line of the
    console of an earlier one. *)
Definition extends (s s' : State) : Prop :=
  (forall key v, Map_get (cache s) key = Some v ->
                 Map_get (cache s') key = Some v) /\
  exists logged, console s' = console s ++ logged.

Definition isMiss (l : line) : bool :=
  match l with
  | CacheMiss _ _ => true
  | CacheHit _ _ => false
  end.

Definition misses (s : State) : Z :=
  Z.of_nat (length (filter isMiss (console s))).

Definition hits (s : State) : Z :=
  Z.of_nat (length (filter (fun l => negb (isMiss l)) (console s))).

(** What a first call with argument k + 2 leaves behind: the entries of
    the cache in the order they were set, the misses and the hits in the
    order they were logged. *)
Definition entry (i : nat) : string * Z :=
  (JSON_stringify [Z.of_nat i], fib i).

Definition cache_after (k : nat) : Map :=
  map entry (1 :: 0 :: seq 2 (S k))%nat.

Definition missed (k : nat) : list line :=
  map (fun i => CacheMiss "fibonacci" (JSON_stringify [Z.of_nat i]))
      (rev (seq 0 (k + 3))).

Definition answered (k : nat) : list line :=
  map (fun i => CacheHit "fibonacci" (JSON_stringify [Z.of_nat i]))
      (seq 1 k).

End Memoize.

(** * The dice roller, continued *)

(** A face value of a die. *)
Definition isFace (n : Z) : Prop := 1 <= n <= 6.

(** ** One host to run the script on

    The development is parametric in what Math.random and StringToNumber
    answer. To run the script on concrete inputs it is given this host:
    the samples 0, 11/64, 22/64, ... 55/64, and again, which give the
    faces 1 to 6 in turn; and StringToNumber on the empty string (0) and on
    optionally negated runs of decimal digits (the integer they write),
    with NaN for every string it does not read. *)

Definition cyclingSamples (k : nat) : binary64 :=
  mkBinary64 (Z.of_nat (k mod 6) * 11) (-6).

Definition StringToNumber_integers (s : string) : number :=
  match s with
  | EmptyString => Finite 0
  | _ =>
      match NilZero.int_of_string s with
      | Some i => Finite (inject_Z (Z.of_int i))
      | None => NaN
      end
  end.

(** The same StringToNumber, reading the decimal 2.5 as well. *)
Definition StringToNumber_with_half (s : string) : number :=
  if String.eqb s "2.5" then Finite (5 # 2) else StringToNumber_integers s.

(** The largest binary64 number below 1/6, 0.16666666666666666. *)
Definition largestBelowSixth : binary64 :=
  mkBinary64 6004799503160661 (-55).

(** The largest binary64 number below 5/6, 0.8333333333333333. *)
Definition largestBelowFiveSixths : binary64 :=
  mkBinary64 7505999378950826 (-53).

(** ** The page and the monad of the script *)

(** What the script can observe and change, on a page that holds the
    elements it selects: the markup of the element [.dice-container], the
    value of the element [#dice-input], and how many results of
    Math.random have been consumed so far. *)
Record World : Type := mkWorld {
  dice_container_innerHTML : string;
  dice_input_value : string;
  random_calls : nat
}.

Definition set_innerHTML (html : string) (w : World) : World :=
  {| dice_container_innerHTML := html;
     dice_input_value := dice_input_value w;
     random_calls := random_calls w |}.

Definition set_value (v : string) (w : World) : World :=
  {| dice_container_innerHTML := dice_container_innerHTML w;
     dice_input_value := v;
     random_calls := random_calls w |}.

Definition skip_samples (n : nat) (w : World) : World :=
  {| dice_container_innerHTML := dice_container_innerHTML w;
     dice_input_value := dice_input_value w;
     random_calls := (random_calls w + n)%nat |}.

(** What the user sees of a world. *)
Definition page (w : World) : string * string :=
  (dice_container_innerHTML w, dice_input_value w).

(** A computation ends normally with a result, or abruptly with a thrown
    exception; either way the world is as it was left at that point. *)
Inductive completion (A : Type) : Type :=
| Normal (a : A) (w : World)
| Throw (e : exn) (w : World).

Arguments Normal {A} a w.
Arguments Throw {A} e w.

Definition JS (A : Type) : Type := World -> completion A.

Definition ret {A} (a : A) : JS A := fun w => Normal a w.

Definition bind {A B} (c : JS A) (k : A -> JS B) : JS B :=
  fun w =>
    match c w with
    | Normal a w' => k a w'
    | Throw e w' => Throw e w'
    end.

Definition throw {A} (e : exn) : JS A := fun w => Throw e w.

Declare Scope js_scope.
Delimit Scope js_scope with js.
Notation "x <- c ;; k" := (bind c (fun x => k))
  (at level 61, c at next level, right associativity) : js_scope.
Notation "c ;;; k" := (bind c (fun _ => k))
  (at level 61, right associativity) : js_scope.

(** The world an event handler leaves behind, whether it returned or
    threw. *)
Definition run {A} (c : JS A) (w : World) : World :=
  match c w with
  | Normal _ w' => w'
  | Throw _ w' => w'
  end.

Definition completesNormally {A} (r : completion A) : Prop :=
  match r with
  | Normal _ _ => True
  | Throw _ _ => False
  end.

(** ** Reading the display back *)

(** The double quote character of the markup. *)
Definition dquote : string := String "034"%char EmptyString.

(** The opening and closing tags of one dice block. *)
Definition openTag : string :=
  ("<div class=" ++ dquote ++ "dice-face" ++ dquote ++ ">")%string.

Definition closeTag : string := "</div>"%string.

(** [strip_prefix p s] is what follows [p] in [s], when [s] starts
    with [p]. *)
Fixpoint strip_prefix (p s : string) : option string :=
  match p with
  | EmptyString => Some s
  | String a p' =>
      match s with
      | EmptyString => None
      | String b s' => if Ascii.eqb a b then strip_prefix p' s' else None
      end
  end.

(** The text up to the next tag, and the markup from that tag on. *)
Fixpoint text_until_tag (s : string) : string * string :=
  match s with
  | EmptyString => (EmptyString, EmptyString)
  | String c s' =>
      if Ascii.eqb c "<"%char then (EmptyString, s)
      else let (t, r) := text_until_tag s' in (String c t, r)
  end.

(** A text holds no tag when none of its characters opens one. *)
Fixpoint tagFree (s : string) : bool :=
  match s with
  | EmptyString => true
  | String c s' => negb (Ascii.eqb c "<"%char) && tagFree s'
  end.

(** The dice blocks of a markup, left to right, each read as the integer
    its text writes; [None] when the markup is anything else than a run
    of dice blocks. Every block read uses one unit of [fuel]. *)
Fixpoint readDiceFaces (fuel : nat) (html : string) : option (list Z) :=
  match html with
  | EmptyString => Some []
  | _ =>
      match fuel with
      | O => None
      | S fuel' =>
          match strip_prefix openTag html with
          | None => None
          | Some inner =>
              let (text, rest) := text_until_tag inner in
              match NilZero.int_of_string text, strip_prefix closeTag rest with
              | Some i, Some html' =>
                  option_map (cons (Z.of_int i)) (readDiceFaces fuel' html')
              | _, _ => None
              end
          end
      end
  end.

(** The faces on display: a markup has no more blocks than characters. *)
Definition displayedFaces (html : string) : option (list Z) :=
  readDiceFaces (String.length html) html.

(** ** On a document that lacks an element

    [document.querySelector] answers null where the document has no
    matching element, and reading or writing a property of null throws a
    TypeError. The script guards the two buttons against that with [?.],
    the dice container and the count input it does not. A document is
    given here by the markup of its dice container and the value of its
    count input, each if the element is there, and by the count of
    consumed samples. *)
Record Document : Type := mkDocument {
  container_innerHTML : option string;
  input_value : option string;
  samples_drawn : nat
}.

Inductive thrown : Type :=
| TypeError
| HostError (e : exn).

Inductive outcome (A : Type) : Type :=
| Returned (a : A) (d : Document)
| Aborted (t : thrown) (d : Document).

Arguments Returned {A} a d.
Arguments Aborted {A} t d.

Definition DOM (A : Type) : Type := Document -> outcome A.

Definition dom_ret {A} (a : A) : DOM A := fun d => Returned a d.

Definition dom_bind {A B} (c : DOM A) (k : A -> DOM B) : DOM B :=
  fun d =>
    match c d with
    | Returned a d' => k a d'
    | Aborted t d' => Aborted t d'
    end.

Notation "x <~ c ;; k" := (dom_bind c (fun x => k))
  (at level 61, c at next level, right associativity).
Notation "c ~;; k" := (dom_bind c (fun _ => k))
  (at level 61, right associativity).

(** The document a listener leaves behind. *)
Definition left_by {A} (o : outcome A) : Document :=
  match o with
  | Returned _ d => d
  | Aborted _ d => d
  end.

(** A world is a document that has both elements. *)
Definition document_of (w : World) : Document :=
  {| container_innerHTML := Some (dice_container_innerHTML w);
     input_value := Some (dice_input_value w);
     samples_drawn := random_calls w |}.

Definition outcome_of {A} (c : completion A) : outcome A :=
  match c with
  | Normal a w => Returned a (document_of w)
  | Throw e w => Aborted (HostError e) (document_of w)
  end.

Definition with_samples (n : nat) (d : Document) : Document :=
  {| container_innerHTML := container_innerHTML d;
     input_value := input_value d;
     samples_drawn := n |}.

(** ** The script *)

Section DiceRoller.

(** The host's answers: the [k]-th result of Math.random since the page
    was loaded, and the Number a String coerces to. *)
Variable random : nat -> binary64.
Variable StringToNumber : string -> number.

Local Open Scope js_scope.

Definition ToNumber (v : value) : number :=
  match v with
  | Num x => x
  | Str s => StringToNumber s
  end.

(** Math.random(): the next sample. *)
Definition Math_random : JS binary64 :=
  fun w => Normal (random (random_calls w)) (skip_samples 1 w).

(** The Array constructor called with a length: it throws above
    2^32 - 1. *)
Definition Array_construct (len : Z) : JS unit :=
  if maxArrayLength <? len then throw RangeError else ret tt.

(** The loop of Array.from over an array-like with no indexed
    property: [mapfn] is called once for each index, in order. *)
Fixpoint Array_from_loop {A} (len : nat) (mapfn : JS A) : JS (list A) :=
  match len with
  | O => ret []
  | S len' =>
      mappedValue <- mapfn ;;
      A' <- Array_from_loop len' mapfn ;;
      ret (mappedValue :: A')
  end.

(** Array.from({ length: v }, mapfn). *)
Definition Array_from {A} (length : value) (mapfn : JS A) : JS (list A) :=
  let len := ToLength (ToNumber length) in
  Array_construct len ;;;
  Array_from_loop (Z.to_nat len) mapfn.

(** document.querySelector('#dice-input').value *)
Definition get_dice_input_value : JS string :=
  fun w => Normal (dice_input_value w) w.

(** document.querySelector('#dice-input').value = v *)
Definition put_dice_input_value (v : string) : JS unit :=
  fun w => Normal tt (set_value v w).

(** document.querySelector('.dice-container').innerHTML = html *)
Definition put_dice_container_innerHTML (html : string) : JS unit :=
  fun w => Normal tt (set_innerHTML html w).

(** The floor of the product is an integer below 2^53, so adding 1 to it
    is exact. *)
Definition generateDiceNumber : JS Z :=
  r <- Math_random ;;
  ret (Math_floor (valueOf (Number_multiply r (ofInteger 6))) + 1)%Z.

Definition generateDiceNumbers (numberOfDice : value) : JS (list Z) :=
  Array_from numberOfDice generateDiceNumber.

(** The template literal of [displayDiceNumbers]. *)
Definition diceFaceHTML (number : Z) : string :=
  (openTag ++ NumberToString number ++ closeTag)%string.

Definition displayDiceNumbers (diceNumbers : list Z) : JS unit :=
  put_dice_container_innerHTML
    (join "" (map (fun number => diceFaceHTML number) diceNumbers)).

Definition rollDice : JS unit :=
  numberOfDice <- get_dice_input_value ;;
  diceNumbers <- generateDiceNumbers (Str numberOfDice) ;;
  displayDiceNumbers diceNumbers.

Definition resetDice : JS unit :=
  put_dice_container_innerHTML "" ;;;
  put_dice_input_value "".

(** The two buttons the script listens to. *)
Inductive button : Type :=
| roll_button
| reset_button.

(** A click runs the listener of the button to its completion. *)
Definition click (b : button) : World -> World :=
  match b with
  | roll_button => run rollDice
  | reset_button => run resetDice
  end.

(** The samples a call of [generateDiceNumbers] consumes from position
    [k] on, turned into faces. *)
Definition facesFrom (k len : nat) : list Z :=
  map (fun i =>
         (Math_floor (valueOf (Number_multiply (random i) (ofInteger 6))) + 1)%Z)
      (seq k len).

(** The number of dice a roll asks the generator for. *)
Definition requestedLength (w : World) : Z :=
  ToLength (ToNumber (Str (dice_input_value w))).

(** The markup [displayDiceNumbers] builds. *)
Definition diceMarkup (diceNumbers : list Z) : string :=
  join "" (map diceFaceHTML diceNumbers).

(** Every sample is a binary64 number of the unit interval, 1 excluded. *)
Definition unitSamples : Prop :=
  forall k, isBinary64 (random k) /\ (valueOf (random k) < 1)%Q.

(** ** The user at the page *)

(** What happens at the page: a click on one of the two buttons, or the
    user typing a count into the input field. *)
Inductive event : Type :=
| press (b : button)
| type_count (v : string).

Definition handle (e : event) (w : World) : World :=
  match e with
  | press b => click b w
  | type_count v => set_value v w
  end.

(** The events of a session, handled one after the other. *)
Definition handle_all (es : list event) (w : World) : World :=
  fold_left (fun w' e => handle e w') es w.

(** The display holds dice blocks only, each with a face value. *)
Definition showsFaces (w : World) : Prop :=
  exists faces,
    displayedFaces (dice_container_innerHTML w) = Some faces
    /\ Forall isFace faces.

(** The draw computed from one sample. *)
Definition faceOf (r : binary64) : Z :=
  Math_floor (valueOf (Number_multiply r (ofInteger 6))) + 1.

(** ** The script on such a document *)

(** A computation of the script that touches no element, run on a
    document: only the count of consumed samples is carried over. *)
Definition elementFree {A} (c : JS A) : DOM A :=
  fun d =>
    match c (mkWorld "" "" (samples_drawn d)) with
    | Normal a w => Returned a (with_samples (random_calls w) d)
    | Throw e w => Aborted (HostError e) (with_samples (random_calls w) d)
    end.

(** document.querySelector('#dice-input').value *)
Definition read_dice_input_value : DOM string :=
  fun d =>
    match input_value d with
    | Some v => Returned v d
    | None => Aborted TypeError d
    end.

(** document.querySelector('#dice-input').value = v *)
Definition write_dice_input_value (v : string) : DOM unit :=
  fun d =>
    match input_value d with
    | Some _ =>
        Returned tt {| container_innerHTML := container_innerHTML d;
                       input_value := Some v;
                       samples_drawn := samples_drawn d |}
    | None => Aborted TypeError d
    end.

(** diceContainer.innerHTML = html, with diceContainer the answer of
    document.querySelector('.dice-container') *)
Definition write_dice_container_innerHTML (html : string) : DOM unit :=
  fun d =>
    match container_innerHTML d with
    | Some _ =>
        Returned tt {| container_innerHTML := Some html;
                       input_value := input_value d;
                       samples_drawn := samples_drawn d |}
    | None => Aborted TypeError d
    end.

Definition displayDiceNumbers_in (diceNumbers : list Z) : DOM unit :=
  write_dice_container_innerHTML
    (join "" (map (fun number => diceFaceHTML number) diceNumbers)).

Definition rollDice_in : DOM unit :=
  numberOfDice <~ read_dice_input_value ;;
  diceNumbers <~ elementFree (generateDiceNumbers (Str numberOfDice)) ;;
  displayDiceNumbers_in diceNumbers.

Definition resetDice_in : DOM unit :=
  write_dice_container_innerHTML "" ~;;
  write_dice_input_value "".

(** ** Facts about the host operations *)

Lemma truncate_inject_Z (n : Z) : truncate (inject_Z n) = n.
Proof. unfold truncate; simpl. apply Z.quot_1_r. Qed.

Lemma truncate_nonpos (q : Q) : (q <= 0)%Q -> truncate q <= 0.
Proof.
  unfold Qle, truncate; simpl; intros Hq.
  rewrite Z.mul_1_r in Hq.
  change 0 with (Z.quot 0 (Zpos (Qden q))).
  apply Z.quot_le_mono; lia.
Qed.

Lemma ToLength_range (x : number) : 0 <= ToLength x <= maxSafeInteger.
Proof.
  unfold ToLength, maxSafeInteger.
  destruct x as [ | [ | ] | q ]; simpl; try lia.
  destruct (Z.leb_spec (truncate q) 0); lia.
Qed.

Lemma ToLength_NaN : ToLength NaN = 0.
Proof. reflexivity. Qed.

Lemma ToLength_nonPositive (x : number) : nonPositive x -> ToLength x = 0.
Proof.
  destruct x as [ | neg | q ]; simpl; intros Hx.
  - contradiction.
  - subst neg; reflexivity.
  - unfold ToLength; simpl.
    apply truncate_nonpos in Hx.
    destruct (Z.leb_spec (truncate q) 0); [reflexivity | lia].
Qed.

Lemma negative_nonPositive (x : number) : negative x -> nonPositive x.
Proof.
  destruct x as [ | neg | q ]; simpl; auto using Qlt_le_weak.
Qed.

Lemma ToLength_integer (n : Z) :
  0 <= n <= maxSafeInteger -> ToLength (Finite (inject_Z n)) = n.
Proof.
  intros Hn; unfold ToLength; simpl.
  rewrite truncate_inject_Z.
  destruct (Z.leb_spec n 0); lia.
Qed.

(** ** Facts about binary64 products *)

(** The rounded quotient is within half a unit of the exact one. *)
Lemma roundShift_nearest (p s : Z) :
  0 < s ->
  p - 2 ^ (s - 1) <= roundShift p s * 2 ^ s <= p + 2 ^ (s - 1).
Proof.
  intros Hs. unfold roundShift.
  destruct (Z.leb_spec s 0) as [H0 | _]; [lia | ].
  assert (Hpow : 2 ^ s = 2 * 2 ^ (s - 1)).
  { replace s with (Z.succ (s - 1)) at 1 by lia. apply Z.pow_succ_r. lia. }
  assert (Hhalf : 0 < 2 ^ (s - 1)) by (apply Z.pow_pos_nonneg; lia).
  pose proof (Z.div_mod p (2 ^ s) ltac:(lia)) as Hdm.
  pose proof (Z.mod_pos_bound p (2 ^ s) ltac:(lia)) as Hrem.
  set (d := p / 2 ^ s) in *. set (rem := p mod 2 ^ s) in *.
  set (h := 2 ^ (s - 1)) in *.
  destruct (Z.ltb_spec rem h); [nia | ].
  destruct (Z.ltb_spec h rem); [nia | ].
  destruct (Z.even d); nia.
Qed.

Lemma roundShift_nonneg (p s : Z) : 0 <= p -> 0 <= roundShift p s.
Proof.
  intros Hp. unfold roundShift.
  destruct (Z.leb_spec s 0) as [H0 | Hs]; [exact Hp | ].
  assert (0 <= p / 2 ^ s) by (apply Z.div_pos; [ | apply Z.pow_pos_nonneg]; lia).
  destruct (_ <? _); [lia | ]. destruct (_ <? _); [lia | ].
  destruct (Z.even _); lia.
Qed.

Lemma Qfloor_fraction (a d : Z) :
  0 < d -> Qfloor (a # Z.to_pos d) = a / d.
Proof. intros Hd. simpl. now rewrite Z2Pos.id. Qed.

Lemma valueOf_nonneg_exp (m e : Z) :
  0 <= e -> valueOf (mkBinary64 m e) = inject_Z (m * 2 ^ e).
Proof.
  intros He. unfold valueOf; simpl.
  destruct (Z.leb_spec 0 e); [reflexivity | lia].
Qed.

Lemma valueOf_neg_exp (m e : Z) :
  e < 0 -> valueOf (mkBinary64 m e) = (m # Z.to_pos (2 ^ (- e)))%Q.
Proof.
  intros He. unfold valueOf; simpl.
  destruct (Z.leb_spec 0 e); [lia | reflexivity].
Qed.

Lemma floor_below_six (m e : Z) :
  e < 0 -> 0 <= m < 6 * 2 ^ (- e) ->
  0 <= Qfloor (valueOf (mkBinary64 m e)) <= 5.
Proof.
  intros He Hm.
  assert (Hd : 0 < 2 ^ (- e)) by (apply Z.pow_pos_nonneg; lia).
  rewrite valueOf_neg_exp, Qfloor_fraction by assumption.
  split.
  - apply Z.div_pos; lia.
  - assert (m / 2 ^ (- e) < 6); [ | lia].
    apply Z.div_lt_upper_bound; lia.
Qed.

(** Six times a binary64 number below 1 rounds to a number below 6: the
    nearest binary64 number below 6 is nearer to the product than 6. *)
Lemma multiply_six_floor (r : binary64) :
  isBinary64 r -> (valueOf r < 1)%Q ->
  0 <= Qfloor (valueOf (Number_multiply r (ofInteger 6))) <= 5.
Proof.
  destruct r as [m e]. unfold isBinary64.
  intros [[Hm0 Hm] [He _]] Hlt.
  cbn [significand exponent] in *.
  unfold Number_multiply, ofInteger; cbn [significand exponent].
  rewrite !Z.add_0_r.
  destruct (Z.le_gt_cases 0 e) as [Hpos | Hneg].
  - (* an integer below 1 is 0 *)
    rewrite valueOf_nonneg_exp in Hlt by exact Hpos.
    assert (Hpow : 0 < 2 ^ e) by (apply Z.pow_pos_nonneg; lia).
    assert (Hz : m = 0).
    { unfold Qlt in Hlt; simpl in Hlt. nia. }
    subst m. change (0 * 6) with 0. change (Z.log2 0) with 0.
    replace (Z.max (Z.max 0 (0 + 1 - 53)) (-1074 - e)) with 0 by lia.
    change (roundShift 0 0) with 0. change (0 =? 2 ^ 53) with false.
    cbv iota. rewrite Z.add_0_r, valueOf_nonneg_exp by exact Hpos.
    rewrite Z.mul_0_l. change (Qfloor (inject_Z 0)) with 0. lia.
  - rewrite valueOf_neg_exp in Hlt by exact Hneg.
    assert (HM : 0 < 2 ^ (- e)) by (apply Z.pow_pos_nonneg; lia).
    assert (HmM : m < 2 ^ (- e)).
    { unfold Qlt in Hlt; simpl in Hlt. rewrite Z2Pos.id in Hlt by exact HM. lia. }
    replace (Z.max (Z.max 0 (Z.log2 (m * 6) + 1 - 53)) (-1074 - e))
      with (Z.max 0 (Z.log2 (m * 6) - 52)) by lia.
    destruct (Z.le_gt_cases (Z.log2 (m * 6)) 52) as [Hsmall | Hbig].
    + (* the product is exact *)
      replace (Z.max 0 (Z.log2 (m * 6) - 52)) with 0 by lia.
      assert (Hp : m * 6 < 2 ^ 53).
      { destruct (Z.eq_dec m 0) as [-> | Hnz]; [reflexivity | ].
        apply Z.log2_lt_pow2; lia. }
      change (roundShift (m * 6) 0) with (m * 6).
      destruct (Z.eqb_spec (m * 6) (2 ^ 53)) as [Heq | _]; [lia | ].
      rewrite Z.add_0_r. apply floor_below_six; lia.
    + (* the product is rounded *)
      assert (Hp0 : 0 < m * 6).
      { destruct (Z.eq_dec m 0) as [-> | Hnz]; [simpl in Hbig; lia | lia]. }
      pose proof (Z.log2_spec (m * 6) Hp0) as [Hlo _].
      assert (Hlog : Z.log2 (m * 6) < 56).
      { apply Z.log2_lt_pow2; [exact Hp0 | ].
        change (2 ^ 56) with (8 * 2 ^ 53). lia. }
      set (s := Z.log2 (m * 6) - 52) in *.
      replace (Z.max 0 s) with s by lia.
      assert (Hs : 1 <= s <= 3) by lia.
      assert (H53 : 2 ^ 53 <= m * 6).
      { eapply Z.le_trans; [ | exact Hlo].
        apply Z.pow_le_mono_r; lia. }
      assert (He51 : 51 <= - e).
      { assert (2 ^ 53 < 2 ^ (3 - e)).
        { replace (3 - e) with (3 + - e) by lia.
          rewrite Z.pow_add_r by lia. change (2 ^ 3) with 8. lia. }
        assert (53 < 3 - e) by (apply (Z.pow_lt_mono_r_iff 2); lia).
        lia. }
      assert (HMD : 2 ^ (- e) = 2 ^ (- (e + s)) * 2 ^ s).
      { rewrite <- Z.pow_add_r by lia. f_equal. lia. }
      assert (HD : 0 < 2 ^ (- (e + s))) by (apply Z.pow_pos_nonneg; lia).
      assert (HS : 0 < 2 ^ s) by (apply Z.pow_pos_nonneg; lia).
      pose proof (roundShift_nearest (m * 6) s ltac:(lia)) as [_ Hup].
      pose proof (roundShift_nonneg (m * 6) s ltac:(lia)) as Hq0.
      assert (Hhalf : 2 ^ (s - 1) <= 4).
      { change 4 with (2 ^ 2). apply Z.pow_le_mono_r; lia. }
      set (q := roundShift (m * 6) s) in *.
      assert (Hq : q < 6 * 2 ^ (- (e + s))) by nia.
      destruct (Z.eqb_spec q (2 ^ 53)) as [Heq | _].
      * assert (Hsplit : 2 ^ (- (e + s)) = 2 ^ (- (e + s + 1)) * 2).
        { replace (- (e + s)) with (- (e + s + 1) + 1) by lia.
          rewrite Z.pow_add_r by lia. reflexivity. }
        apply floor_below_six; [lia | ].
        change (2 ^ 53) with (2 ^ 52 * 2) in Heq. lia.
      * apply floor_below_six; lia.
Qed.

(** The product is exact when it fits the significand. *)
Lemma multiply_six_exact (r : binary64) :
  isBinary64 r -> significand r * 6 < 2 ^ 53 ->
  (valueOf (Number_multiply r (ofInteger 6)) == valueOf r * 6)%Q.
Proof.
  destruct r as [m e]. unfold isBinary64.
  intros [[Hm0 Hm] [He _]] Hfit. cbn [significand exponent] in *.
  unfold Number_multiply, ofInteger; cbn [significand exponent].
  rewrite !Z.add_0_r.
  assert (Hlog : Z.log2 (m * 6) < 53).
  { destruct (Z.eq_dec m 0) as [-> | Hnz]; [reflexivity | ].
    apply Z.log2_lt_pow2; lia. }
  replace (Z.max (Z.max 0 (Z.log2 (m * 6) + 1 - 53)) (-1074 - e)) with 0 by lia.
  change (roundShift (m * 6) 0) with (m * 6).
  destruct (Z.eqb_spec (m * 6) (2 ^ 53)) as [Heq | _]; [lia | ].
  rewrite Z.add_0_r.
  destruct (Z.le_gt_cases 0 e) as [Hpos | Hneg].
  - rewrite !valueOf_nonneg_exp by exact Hpos.
    unfold Qeq; simpl. ring.
  - rewrite !valueOf_neg_exp by exact Hneg.
    unfold Qeq; simpl. rewrite Pos.mul_1_r. ring.
Qed.

(** ** Facts about the monad and the generator *)

Lemma skip_samples_0 (w : World) : skip_samples 0 w = w.
Proof.
  destruct w as [h v c]; unfold skip_samples; simpl.
  now rewrite Nat.add_0_r.
Qed.

Lemma skip_samples_S (n : nat) (w : World) :
  skip_samples n (skip_samples 1 w) = skip_samples (S n) w.
Proof.
  unfold skip_samples; simpl. f_equal. lia.
Qed.

Lemma generateDiceNumber_eq (w : World) :
  generateDiceNumber w
  = Normal
      (Math_floor
         (valueOf (Number_multiply (random (random_calls w)) (ofInteger 6))) + 1)
      (skip_samples 1 w).
Proof. reflexivity. Qed.

(** The loop of Array.from draws [len] samples in order and never
    throws. *)
Lemma Array_from_loop_generate (len : nat) :
  forall w,
    Array_from_loop len generateDiceNumber w
    = Normal (facesFrom (random_calls w) len) (skip_samples len w).
Proof.
  induction len as [ | len IH]; intros w.
  - simpl. unfold ret. now rewrite skip_samples_0.
  - cbn [Array_from_loop]. unfold bind at 1.
    rewrite generateDiceNumber_eq. unfold bind at 1.
    rewrite IH. unfold ret.
    rewrite skip_samples_S. unfold facesFrom. cbn [seq map].
    simpl random_calls. now rewrite Nat.add_1_r.
Qed.

Lemma generateDiceNumbers_small (v : value) (w : World) :
  ToLength (ToNumber v) <= maxArrayLength ->
  generateDiceNumbers v w
  = Normal (facesFrom (random_calls w) (Z.to_nat (ToLength (ToNumber v))))
           (skip_samples (Z.to_nat (ToLength (ToNumber v))) w).
Proof.
  intros Hlen. unfold generateDiceNumbers, Array_from, Array_construct.
  destruct (Z.ltb_spec maxArrayLength (ToLength (ToNumber v))); [lia | ].
  unfold bind at 1, ret. apply Array_from_loop_generate.
Qed.

Lemma generateDiceNumbers_large (v : value) (w : World) :
  maxArrayLength < ToLength (ToNumber v) ->
  generateDiceNumbers v w = Throw RangeError w.
Proof.
  intros Hlen. unfold generateDiceNumbers, Array_from, Array_construct.
  destruct (Z.ltb_spec maxArrayLength (ToLength (ToNumber v))); [ | lia].
  reflexivity.
Qed.

Lemma facesFrom_length (k len : nat) : length (facesFrom k len) = len.
Proof. unfold facesFrom. now rewrite length_map, length_seq. Qed.

Lemma rollDice_eq (w : World) :
  rollDice w
  = bind (generateDiceNumbers (Str (dice_input_value w))) displayDiceNumbers w.
Proof. reflexivity. Qed.

(** ** Facts about the markup *)

Lemma join_empty_cons (x : string) (l : list string) :
  join "" (x :: l) = (x ++ join "" l)%string.
Proof.
  unfold join. destruct l as [ | y l]; simpl.
  - induction x as [ | a x IH]; simpl; [reflexivity | now rewrite <- IH].
  - reflexivity.
Qed.

Lemma append_assoc (a b c : string) :
  ((a ++ b) ++ c = a ++ (b ++ c))%string.
Proof. induction a as [ | x a IH]; simpl; [reflexivity | now rewrite IH]. Qed.

Lemma strip_prefix_append (p s : string) :
  strip_prefix p (p ++ s) = Some s.
Proof.
  induction p as [ | a p IH]; simpl; [reflexivity | ].
  now rewrite Ascii.eqb_refl.
Qed.

Lemma text_until_tag_append (t r : string) :
  tagFree t = true ->
  text_until_tag (t ++ String "<"%char r) = (t, String "<"%char r).
Proof.
  induction t as [ | c t IH]; simpl; intros Ht.
  - reflexivity.
  - apply andb_true_iff in Ht as [Hc Ht].
    apply negb_true_iff in Hc. rewrite Hc, (IH Ht). reflexivity.
Qed.

Lemma string_of_uint_tagFree (d : Decimal.uint) :
  tagFree (NilEmpty.string_of_uint d) = true.
Proof. induction d; simpl; trivial. Qed.

Lemma NumberToString_tagFree (n : Z) : tagFree (NumberToString n) = true.
Proof.
  unfold NumberToString.
  destruct (Z.to_int n) as [d | d]; simpl;
    destruct d; simpl; trivial; apply string_of_uint_tagFree.
Qed.

(** The numeral of an integer reads back as that integer. *)
Lemma NumberToString_reads_back (n : Z) :
  option_map Z.of_int (NilZero.int_of_string (NumberToString n)) = Some n.
Proof.
  unfold NumberToString.
  rewrite NilZero.isi.
  - simpl. now rewrite DecimalZ.of_to.
  - destruct n; simpl; try discriminate.
    intros [= H]. now apply (Unsigned.to_uint_nonnil p).
  - destruct n; simpl; try discriminate.
    intros [= H]. now apply (Unsigned.to_uint_nonnil p).
Qed.

Lemma diceFaceHTML_nonempty (n : Z) (s : string) :
  exists c s', (diceFaceHTML n ++ s)%string = String c s'.
Proof. unfold diceFaceHTML, openTag. simpl. eauto. Qed.

Lemma readDiceFaces_render (l : list Z) :
  forall fuel, (length l <= fuel)%nat ->
    readDiceFaces fuel (join "" (map diceFaceHTML l)) = Some l.
Proof.
  induction l as [ | n l IH]; intros fuel Hfuel.
  - destruct fuel; reflexivity.
  - destruct fuel as [ | fuel]; [simpl in Hfuel; lia | ].
    cbn [map]. rewrite join_empty_cons.
    destruct (diceFaceHTML_nonempty n (join "" (map diceFaceHTML l)))
      as (c & s' & Hs).
    cbn [readDiceFaces]. rewrite Hs, <- Hs. clear Hs c s'.
    unfold diceFaceHTML at 1. rewrite !append_assoc, strip_prefix_append.
    change (closeTag ++ join "" (map diceFaceHTML l))%string
      with (String "<"%char ("/div>" ++ join "" (map diceFaceHTML l)))%string.
    rewrite text_until_tag_append by apply NumberToString_tagFree.
    pose proof (NumberToString_reads_back n) as Hn.
    destruct (NilZero.int_of_string (NumberToString n)) as [i | ];
      [ | discriminate].
    injection Hn as Hn.
    change (String "<"%char ("/div>" ++ join "" (map diceFaceHTML l)))%string
      with (closeTag ++ join "" (map diceFaceHTML l))%string.
    rewrite strip_prefix_append, IH by (simpl in Hfuel; lia).
    simpl. now rewrite Hn.
Qed.

Lemma length_append (a b : string) :
  String.length (a ++ b) = (String.length a + String.length b)%nat.
Proof. induction a as [ | x a IH]; simpl; [reflexivity | now rewrite IH]. Qed.

Lemma render_length (l : list Z) :
  (length l <= String.length (join "" (map diceFaceHTML l)))%nat.
Proof.
  induction l as [ | n l IH]; [simpl; lia | ].
  cbn [map length]. rewrite join_empty_cons, length_append.
  destruct (diceFaceHTML_nonempty n EmptyString) as (c & s' & Hs).
  apply (f_equal String.length) in Hs. rewrite length_append in Hs.
  cbn [String.length] in Hs. lia.
Qed.

Lemma displayedFaces_render (l : list Z) :
  displayedFaces (join "" (map diceFaceHTML l)) = Some l.
Proof. apply readDiceFaces_render, render_length. Qed.

(** ** What a roll leaves behind *)

Lemma displayDiceNumbers_eq (diceNumbers : list Z) (w : World) :
  displayDiceNumbers diceNumbers w
  = Normal tt (set_innerHTML (diceMarkup diceNumbers) w).
Proof. reflexivity. Qed.

Lemma rollDice_small (w : World) :
  requestedLength w <= maxArrayLength ->
  rollDice w
  = Normal tt
      (set_innerHTML
         (diceMarkup (facesFrom (random_calls w) (Z.to_nat (requestedLength w))))
         (skip_samples (Z.to_nat (requestedLength w)) w)).
Proof.
  intros Hlen. rewrite rollDice_eq. unfold bind.
  rewrite generateDiceNumbers_small by exact Hlen.
  reflexivity.
Qed.

Lemma rollDice_large (w : World) :
  maxArrayLength < requestedLength w ->
  rollDice w = Throw RangeError w.
Proof.
  intros Hlen. rewrite rollDice_eq. unfold bind.
  now rewrite generateDiceNumbers_large by exact Hlen.
Qed.

Lemma facesFrom_isFace (k len : nat) :
  unitSamples -> Forall isFace (facesFrom k len).
Proof.
  intros Hunit. unfold facesFrom. apply Forall_forall.
  intros x Hx. apply in_map_iff in Hx as (i & <- & _).
  destruct (Hunit i) as [Hbin Hlt].
  pose proof (multiply_six_floor (random i) Hbin Hlt).
  unfold isFace, Math_floor. lia.
Qed.

Lemma isFace_isSafeInteger (n : Z) : isFace n -> isSafeInteger n.
Proof. unfold isFace, isSafeInteger, maxSafeInteger. lia. Qed.

(** ** The generator *)

(** C1, amended. For every integer N with 0 <= N <= 2^32 - 1, the
    generator applied to N returns a sequence of exactly N values, each
    of them a face value in [1,6], and consumes N samples. *)
Theorem generateDiceNumbers_faces (N : Z) (w : World) :
  unitSamples ->
  0 <= N <= maxArrayLength ->
  exists faces,
    generateDiceNumbers (Num (Finite (inject_Z N))) w
    = Normal faces (skip_samples (Z.to_nat N) w)
    /\ Z.of_nat (length faces) = N
    /\ Forall isFace faces.
Proof.
  intros Hunit HN.
  assert (Hlen : ToLength (ToNumber (Num (Finite (inject_Z N)))) = N).
  { simpl. apply ToLength_integer.
    unfold maxArrayLength, maxSafeInteger in *. lia. }
  exists (facesFrom (random_calls w) (Z.to_nat N)).
  rewrite generateDiceNumbers_small by (rewrite Hlen; lia).
  rewrite Hlen, facesFrom_length.
  repeat split; [lia | now apply facesFrom_isFace].
Qed.

(** C7. With a requested count of 0 the generator returns the empty
    sequence, and rendering it leaves the display empty. *)
Theorem zero_dice_empty_display (w : World) :
  generateDiceNumbers (Num (Finite 0)) w = Normal [] w
  /\ bind (generateDiceNumbers (Num (Finite 0))) displayDiceNumbers w
     = Normal tt (set_innerHTML "" w)
  /\ displayedFaces (dice_container_innerHTML
       (run (bind (generateDiceNumbers (Num (Finite 0))) displayDiceNumbers) w))
     = Some [].
Proof. repeat split. Qed.

(** ** The renderer *)

(** C2. What the renderer writes for each of the face values 1 to 6, the
    values 1 and 6 among them: one block whose whole content is the
    decimal numeral of the value, a text without any element inside. *)
Theorem displayDiceNumbers_writes_numerals (w : World) :
  map (fun face => dice_container_innerHTML (run (displayDiceNumbers [face]) w))
      [1; 2; 3; 4; 5; 6]
  = map (fun numeral => (openTag ++ numeral ++ closeTag)%string)
      ["1"; "2"; "3"; "4"; "5"; "6"]%string
  /\ dice_container_innerHTML (run (displayDiceNumbers [1]) w)
     = (openTag ++ "1" ++ closeTag)%string
  /\ dice_container_innerHTML (run (displayDiceNumbers [6]) w)
     = (openTag ++ "6" ++ closeTag)%string
  /\ tagFree "1" = true /\ tagFree "6" = true.
Proof. repeat split. Qed.

(** C6. The renderer replaces the display: the markup it leaves depends
    on the roll result alone, so two runs on the same roll result from any
    two prior worlds end with the same display. *)
Theorem displayDiceNumbers_replaces (diceNumbers : list Z) (w1 w2 : World) :
  dice_container_innerHTML (run (displayDiceNumbers diceNumbers) w1)
  = dice_container_innerHTML (run (displayDiceNumbers diceNumbers) w2)
  /\ dice_container_innerHTML (run (displayDiceNumbers diceNumbers) w1)
     = diceMarkup diceNumbers.
Proof. split; reflexivity. Qed.

(** C10. For every roll result (of safe integers, the face values among
    them) the renderer completes normally and the display it leaves is
    one dice block per element and nothing else: the display is the
    blocks put together, there are as many blocks as elements, the block
    at each position carries the numeral of the element at that position,
    and reading the display back gives the roll result itself. *)
Theorem displayDiceNumbers_blocks (diceNumbers : list Z) (w : World) :
  Forall isSafeInteger diceNumbers ->
  completesNormally (displayDiceNumbers diceNumbers w)
  /\ displayedFaces
       (dice_container_innerHTML (run (displayDiceNumbers diceNumbers) w))
     = Some diceNumbers
  /\ exists blocks,
       dice_container_innerHTML (run (displayDiceNumbers diceNumbers) w)
       = String.concat "" blocks
       /\ length blocks = length diceNumbers
       /\ forall k number,
            nth_error diceNumbers k = Some number ->
            nth_error blocks k
            = Some (openTag ++ NumberToString number ++ closeTag)%string.
Proof.
  intros _.
  assert (Hrun : dice_container_innerHTML (run (displayDiceNumbers diceNumbers) w)
                 = join "" (map diceFaceHTML diceNumbers)).
  { unfold run. rewrite displayDiceNumbers_eq. reflexivity. }
  split; [rewrite displayDiceNumbers_eq; exact I | ].
  split; [rewrite Hrun; apply displayedFaces_render | ].
  exists (map diceFaceHTML diceNumbers).
  split; [exact Hrun | ].
  split; [apply length_map | ].
  intros k number Hk. rewrite nth_error_map, Hk. reflexivity.
Qed.

(** ** The controller *)

(** C3. From every prior world the reset command completes normally and
    leaves the display empty and the input field's value empty. *)
Theorem resetDice_clears (w : World) :
  resetDice w = Normal tt (mkWorld "" "" (random_calls w))
  /\ dice_container_innerHTML (run resetDice w) = ""%string
  /\ dice_input_value (run resetDice w) = ""%string
  /\ displayedFaces (dice_container_innerHTML (run resetDice w)) = Some [].
Proof. repeat split. Qed.

(** C4, amended. For every value of the input field the roll command
    hands the raw value to the generator. No guard rejects, clamps or
    signals an error for a negative or non-numeric count: such a roll
    completes normally. The only error of the roll path is the host's
    RangeError from the array construction, thrown exactly when the
    coerced length exceeds 2^32 - 1, and it leaves the world as it was. *)
Theorem rollDice_unguarded (w : World) :
  rollDice w
  = bind (generateDiceNumbers (Str (dice_input_value w))) displayDiceNumbers w
  /\ (isNaN (StringToNumber (dice_input_value w))
      \/ negative (StringToNumber (dice_input_value w)) ->
      completesNormally (rollDice w))
  /\ (completesNormally (rollDice w) <-> requestedLength w <= maxArrayLength)
  /\ (rollDice w = Throw RangeError w <-> maxArrayLength < requestedLength w).
Proof.
  split; [reflexivity | ].
  assert (Hsmall : requestedLength w <= maxArrayLength ->
                   completesNormally (rollDice w)).
  { intros H. now rewrite rollDice_small. }
  assert (Hlarge : maxArrayLength < requestedLength w ->
                   rollDice w = Throw RangeError w).
  { apply rollDice_large. }
  split; [ | split; split].
  - intros Hv. apply Hsmall.
    assert (Hzero : requestedLength w = 0).
    { unfold requestedLength; simpl. destruct Hv as [Hv | Hv].
      - unfold isNaN in Hv. now rewrite Hv.
      - now apply ToLength_nonPositive, negative_nonPositive. }
    rewrite Hzero. unfold maxArrayLength. lia.
  - intros Hok.
    destruct (Z.le_gt_cases (requestedLength w) maxArrayLength) as [H | H];
      [exact H | ].
    rewrite (Hlarge H) in Hok. contradiction.
  - exact Hsmall.
  - intros Hthrow.
    destruct (Z.le_gt_cases (requestedLength w) maxArrayLength) as [H | H];
      [ | exact H].
    rewrite rollDice_small in Hthrow by exact H. discriminate.
  - exact Hlarge.
Qed.

(** C9. When the input field's value is the empty string, or any string
    whose numeric coercion is NaN or non-positive, the roll command does
    not fail: the length coerces to 0, the generator returns the empty
    sequence without consuming a sample, and the display is left empty. *)
Theorem rollDice_empty_count (w : World) :
  StringToNumber "" = Finite 0 ->
  dice_input_value w = ""%string
  \/ isNaN (StringToNumber (dice_input_value w))
  \/ nonPositive (StringToNumber (dice_input_value w)) ->
  requestedLength w = 0
  /\ generateDiceNumbers (Str (dice_input_value w)) w = Normal [] w
  /\ rollDice w = Normal tt (set_innerHTML "" w)
  /\ displayedFaces (dice_container_innerHTML (run rollDice w)) = Some [].
Proof.
  intros Hempty Hv.
  assert (Hzero : requestedLength w = 0).
  { unfold requestedLength; simpl. destruct Hv as [Hv | [Hv | Hv]].
    - now rewrite Hv, Hempty.
    - unfold isNaN in Hv. now rewrite Hv.
    - now apply ToLength_nonPositive. }
  assert (Hgen : generateDiceNumbers (Str (dice_input_value w)) w = Normal [] w).
  { rewrite generateDiceNumbers_small;
      fold (requestedLength w); rewrite Hzero.
    - simpl. now rewrite skip_samples_0.
    - unfold maxArrayLength; lia. }
  assert (Hroll : rollDice w = Normal tt (set_innerHTML "" w)).
  { rewrite rollDice_eq. unfold bind. now rewrite Hgen. }
  repeat split; try assumption.
  unfold run. now rewrite Hroll.
Qed.

Lemma run_rollDice_small (w : World) :
  requestedLength w <= maxArrayLength ->
  run rollDice w
  = set_innerHTML
      (diceMarkup (facesFrom (random_calls w) (Z.to_nat (requestedLength w))))
      (skip_samples (Z.to_nat (requestedLength w)) w).
Proof. intros H. unfold run. now rewrite rollDice_small. Qed.

Lemma run_rollDice_large (w : World) :
  maxArrayLength < requestedLength w -> run rollDice w = w.
Proof. intros H. unfold run. now rewrite rollDice_large. Qed.

(** C8, amended. Reset is idempotent. Roll is not, since a repeated roll
    draws fresh samples: rolling twice leaves the world that one roll
    leaves when it starts after the samples of the first roll, so the
    input field is as after one roll and as many dice are displayed, with
    faces of their own. Neither command depends on what ran before it
    through the display: reset leaves the same page from every world, and
    a roll that completes leaves the same page whatever was displayed. *)
Theorem commands_repeated (w : World) :
  click reset_button (click reset_button w) = click reset_button w
  /\ click roll_button (click roll_button w)
     = click roll_button
         (skip_samples
            (random_calls (click roll_button w) - random_calls w) w)
  /\ dice_input_value (click roll_button (click roll_button w))
     = dice_input_value (click roll_button w)
  /\ option_map (@length Z)
       (displayedFaces
          (dice_container_innerHTML (click roll_button (click roll_button w))))
     = option_map (@length Z)
         (displayedFaces (dice_container_innerHTML (click roll_button w)))
  /\ (forall w', page (click reset_button w') = page (click reset_button w))
  /\ (forall html,
        completesNormally (rollDice w) ->
        page (click roll_button (set_innerHTML html w))
        = page (click roll_button w)).
Proof.
  unfold click.
  split; [reflexivity | ].
  destruct (Z.le_gt_cases (requestedLength w) maxArrayLength) as [H | H].
  - (* the roll completes *)
    rewrite (run_rollDice_small w H).
    set (n := Z.to_nat (requestedLength w)).
    set (w1 := set_innerHTML _ (skip_samples n w)).
    assert (H1 : requestedLength w1 <= maxArrayLength) by exact H.
    assert (H2 : requestedLength (skip_samples n w) <= maxArrayLength)
      by exact H.
    rewrite (run_rollDice_small w1 H1).
    change (requestedLength w1) with (requestedLength w). fold n.
    repeat split.
    + simpl random_calls.
      replace (random_calls w + n - random_calls w)%nat with n by lia.
      rewrite (run_rollDice_small _ H2). reflexivity.
    + simpl dice_container_innerHTML. unfold diceMarkup.
      rewrite !displayedFaces_render. simpl.
      now rewrite !facesFrom_length.
    + intros html _.
      assert (H3 : requestedLength (set_innerHTML html w) <= maxArrayLength)
        by exact H.
      rewrite (run_rollDice_small _ H3). reflexivity.
  - (* the roll throws and changes nothing *)
    rewrite !(run_rollDice_large w H).
    repeat split.
    + replace (random_calls w - random_calls w)%nat with 0%nat by lia.
      now rewrite skip_samples_0, (run_rollDice_large w H).
    + intros html Hok. rewrite (rollDice_large w H) in Hok. contradiction.
Qed.

(** ** More on the roll *)

Lemma requestedLength_nonneg (w : World) : 0 <= requestedLength w.
Proof. unfold requestedLength. apply ToLength_range. Qed.

Lemma truncate_nonneg_floor (q : Q) : (0 <= q)%Q -> truncate q = Qfloor q.
Proof.
  destruct q as [n d]. unfold Qle, truncate; simpl. intros Hq.
  apply Z.quot_div_nonneg; lia.
Qed.

Lemma ToLength_nonneg_finite (q : Q) :
  (0 <= q)%Q -> Qfloor q <= maxSafeInteger -> ToLength (Finite q) = Qfloor q.
Proof.
  intros Hq Hsafe. unfold ToLength; simpl.
  rewrite truncate_nonneg_floor by exact Hq.
  assert (H0 : 0 <= Qfloor q).
  { change 0 with (Qfloor (inject_Z 0)). now apply Qfloor_resp_le. }
  destruct (Z.leb_spec (Qfloor q) 0); lia.
Qed.

Lemma ToLength_large_finite (q : Q) :
  (inject_Z (2 ^ 32) <= q)%Q -> maxArrayLength < ToLength (Finite q).
Proof.
  intros Hq. unfold ToLength; simpl.
  assert (H0 : (0 <= q)%Q) by (eapply Qle_trans; [ | exact Hq]; discriminate).
  rewrite truncate_nonneg_floor by exact H0.
  assert (Hfl : 2 ^ 32 <= Qfloor q).
  { rewrite <- (Qfloor_Z (2 ^ 32)). now apply Qfloor_resp_le. }
  unfold maxArrayLength, maxSafeInteger.
  destruct (Z.leb_spec (Qfloor q) 0); lia.
Qed.

Lemma generateDiceNumber_faceOf (w : World) :
  generateDiceNumber w
  = Normal (faceOf (random (random_calls w))) (skip_samples 1 w).
Proof. reflexivity. Qed.

Lemma facesFrom_nth_error (c len k : nat) :
  (k < len)%nat ->
  nth_error (facesFrom c len) k = Some (faceOf (random (c + k))).
Proof.
  intros Hk. unfold facesFrom.
  rewrite nth_error_map, nth_error_seq.
  destruct (Nat.ltb_spec k len); [reflexivity | lia].
Qed.

(** X1. A roll whose count coerces to a length within the array limit
    displays the dice the generator returns for the value of the input
    field: exactly that many, in its order, every one with a face in
    [1,6]; it leaves the input field alone and consumes one sample per
    die. *)
Theorem rollDice_shows_requested_dice (w : World) :
  unitSamples ->
  requestedLength w <= maxArrayLength ->
  exists faces,
    generateDiceNumbers (Str (dice_input_value w)) w
    = Normal faces (skip_samples (length faces) w)
    /\ displayedFaces (dice_container_innerHTML (run rollDice w)) = Some faces
    /\ Z.of_nat (length faces) = requestedLength w
    /\ Forall isFace faces
    /\ dice_input_value (run rollDice w) = dice_input_value w
    /\ random_calls (run rollDice w) = (random_calls w + length faces)%nat.
Proof.
  intros Hunit Hlen.
  exists (facesFrom (random_calls w) (Z.to_nat (requestedLength w))).
  rewrite (run_rollDice_small w Hlen). cbn [dice_container_innerHTML set_innerHTML].
  unfold diceMarkup. rewrite displayedFaces_render, facesFrom_length.
  pose proof (requestedLength_nonneg w).
  split; [now apply generateDiceNumbers_small | ].
  repeat split; [lia | now apply facesFrom_isFace].
Qed.

(** X2. The generator fills its result in index order, one sample per
    element: the element at index k is the draw from the k-th sample
    after those consumed before the call. *)
Theorem generateDiceNumbers_in_sample_order (v : value) (w : World) (k : nat) :
  ToLength (ToNumber v) <= maxArrayLength ->
  Z.of_nat k < ToLength (ToNumber v) ->
  exists faces w',
    generateDiceNumbers v w = Normal faces w'
    /\ nth_error faces k = Some (faceOf (random (random_calls w + k))).
Proof.
  intros Hlen Hk.
  rewrite (generateDiceNumbers_small v w Hlen).
  eexists; eexists; split; [reflexivity | ].
  apply facesFrom_nth_error. lia.
Qed.

(** X3. A count that coerces to a finite number q >= 0 is truncated, not
    rounded or rejected: below 2^32 the roll displays floor(q) dice (none
    for 0 <= q < 1), and from 2^32 on it throws the RangeError and
    changes nothing. *)
Theorem rollDice_truncates_count (w : World) (q : Q) :
  StringToNumber (dice_input_value w) = Finite q ->
  (0 <= q)%Q ->
  ((q < inject_Z (2 ^ 32))%Q ->
   exists faces,
     rollDice w = Normal tt (run rollDice w)
     /\ displayedFaces (dice_container_innerHTML (run rollDice w)) = Some faces
     /\ Z.of_nat (length faces) = Qfloor q)
  /\ ((inject_Z (2 ^ 32) <= q)%Q -> rollDice w = Throw RangeError w).
Proof.
  intros Hv Hq. split.
  - intros Hsmall.
    assert (Hfl : Qfloor q < 2 ^ 32).
    { pose proof (Qfloor_le q) as Hle.
      assert (H : (inject_Z (Qfloor q) < inject_Z (2 ^ 32))%Q)
        by (eapply Qle_lt_trans; eassumption).
      now rewrite <- Zlt_Qlt in H. }
    assert (Hreq : requestedLength w = Qfloor q).
    { unfold requestedLength; simpl. rewrite Hv.
      apply ToLength_nonneg_finite; [exact Hq | ].
      unfold maxSafeInteger. lia. }
    assert (Hlen : requestedLength w <= maxArrayLength).
    { rewrite Hreq. unfold maxArrayLength. lia. }
    exists (facesFrom (random_calls w) (Z.to_nat (requestedLength w))).
    rewrite (run_rollDice_small w Hlen). split; [now apply rollDice_small | ].
    cbn [dice_container_innerHTML set_innerHTML].
    unfold diceMarkup. rewrite displayedFaces_render, facesFrom_length.
    pose proof (requestedLength_nonneg w). split; [reflexivity | lia].
  - intros Hlarge. apply rollDice_large.
    unfold requestedLength; simpl. rewrite Hv.
    now apply ToLength_large_finite.
Qed.

(** X4. Right after a reset, a roll is without effect: the input field
    is empty, so no die is drawn or displayed and no sample is consumed. *)
Theorem rollDice_after_resetDice (w : World) :
  StringToNumber "" = Finite 0 ->
  rollDice (run resetDice w) = Normal tt (run resetDice w)
  /\ click roll_button (click reset_button w) = click reset_button w.
Proof.
  intros Hempty.
  assert (Hreq : requestedLength (run resetDice w) = 0).
  { unfold requestedLength; simpl. now rewrite Hempty. }
  assert (Hlen : requestedLength (run resetDice w) <= maxArrayLength).
  { rewrite Hreq. unfold maxArrayLength. lia. }
  assert (Hroll : rollDice (run resetDice w) = Normal tt (run resetDice w)).
  { rewrite (rollDice_small _ Hlen), Hreq. simpl.
    unfold skip_samples; simpl. now rewrite Nat.add_0_r. }
  split; [exact Hroll | ].
  unfold click, run at 1. now rewrite Hroll.
Qed.

(** ** More on the renderer *)

Lemma diceMarkup_app (l1 l2 : list Z) :
  diceMarkup (l1 ++ l2) = (diceMarkup l1 ++ diceMarkup l2)%string.
Proof.
  unfold diceMarkup. induction l1 as [ | n l1 IH]; [reflexivity | ].
  cbn [app map]. now rewrite !join_empty_cons, IH, append_assoc.
Qed.

(** X5. The renderer loses nothing: two roll results (of safe integers)
    that leave the same display are the same roll result. *)
Theorem displayDiceNumbers_injective (l1 l2 : list Z) (w1 w2 : World) :
  Forall isSafeInteger l1 -> Forall isSafeInteger l2 ->
  dice_container_innerHTML (run (displayDiceNumbers l1) w1)
  = dice_container_innerHTML (run (displayDiceNumbers l2) w2) ->
  l1 = l2.
Proof.
  intros _ _ Hsame.
  change (diceMarkup l1 = diceMarkup l2) in Hsame.
  apply (f_equal displayedFaces) in Hsame.
  unfold diceMarkup in Hsame. rewrite !displayedFaces_render in Hsame.
  now injection Hsame.
Qed.

(** X6. Rendering is block by block: the display of one roll result
    followed by another is the display of the first followed by the
    display of the second, and the display of the empty result is
    empty. *)
Theorem displayDiceNumbers_app (l1 l2 : list Z) (w : World) :
  dice_container_innerHTML (run (displayDiceNumbers (l1 ++ l2)) w)
  = (dice_container_innerHTML (run (displayDiceNumbers l1) w)
     ++ dice_container_innerHTML (run (displayDiceNumbers l2) w))%string
  /\ dice_container_innerHTML (run (displayDiceNumbers []) w) = ""%string.
Proof. split; [apply diceMarkup_app | reflexivity]. Qed.

(** ** Sessions *)

Lemma showsFaces_handle (e : event) (w : World) :
  unitSamples -> showsFaces w -> showsFaces (handle e w).
Proof.
  intros Hunit Hw. destruct e as [[ | ] | v]; cbn [handle click].
  - destruct (Z.le_gt_cases (requestedLength w) maxArrayLength) as [H | H].
    + rewrite (run_rollDice_small w H).
      exists (facesFrom (random_calls w) (Z.to_nat (requestedLength w))).
      cbn [dice_container_innerHTML set_innerHTML]. unfold diceMarkup.
      split; [apply displayedFaces_render | now apply facesFrom_isFace].
    + now rewrite (run_rollDice_large w H).
  - exists []. split; [reflexivity | constructor].
  - exact Hw.
Qed.

(** X7. The display only ever shows dice: if the container starts with
    dice blocks of face values (or empty), then after any session of
    clicks and typing, failed rolls included, it still holds dice blocks
    only and every face shown lies in [1,6]. *)
Theorem display_always_shows_faces (es : list event) (w : World) :
  unitSamples -> showsFaces w -> showsFaces (handle_all es w).
Proof.
  intros Hunit. revert w. unfold handle_all.
  induction es as [ | e es IH]; intros w Hw; [exact Hw | ].
  cbn [fold_left]. apply IH. now apply showsFaces_handle.
Qed.

Lemma handle_all_app (es1 es2 : list event) (w : World) :
  handle_all (es1 ++ es2) w = handle_all es2 (handle_all es1 w).
Proof. unfold handle_all. apply fold_left_app. Qed.

(** X8. Pressing the roll button n + 1 times in a row, with a count
    within the array limit, leaves the count in the input field as it
    was, displays the requested number of dice and has consumed that many
    samples for each of the n + 1 rolls. *)
Theorem repeated_rolls (n : nat) (w : World) :
  unitSamples ->
  requestedLength w <= maxArrayLength ->
  let w' := handle_all (repeat (press roll_button) (S n)) w in
  exists faces,
    displayedFaces (dice_container_innerHTML w') = Some faces
    /\ Z.of_nat (length faces) = requestedLength w
    /\ Forall isFace faces
    /\ dice_input_value w' = dice_input_value w
    /\ random_calls w' = (random_calls w + S n * length faces)%nat.
Proof.
  intros Hunit Hlen. pose proof (requestedLength_nonneg w) as H0.
  induction n as [ | n IH].
  - cbn [repeat handle_all fold_left handle click].
    rewrite (run_rollDice_small w Hlen).
    exists (facesFrom (random_calls w) (Z.to_nat (requestedLength w))).
    cbn [dice_container_innerHTML dice_input_value random_calls
         set_innerHTML skip_samples].
    unfold diceMarkup. rewrite displayedFaces_render, facesFrom_length.
    repeat split; [lia | now apply facesFrom_isFace | lia].
  - destruct IH as (faces & _ & Hcount & _ & Hin & Hcalls).
    intros w'. subst w'.
    replace (repeat (press roll_button) (S (S n)))
      with (repeat (press roll_button) (S n) ++ [press roll_button])
      by (rewrite <- repeat_cons; reflexivity).
    rewrite handle_all_app.
    set (w1 := handle_all (repeat (press roll_button) (S n)) w) in *.
    assert (Hreq : requestedLength w1 = requestedLength w).
    { unfold requestedLength. now rewrite Hin. }
    assert (Hlen1 : requestedLength w1 <= maxArrayLength) by (rewrite Hreq; lia).
    cbn [handle_all fold_left handle click].
    rewrite (run_rollDice_small w1 Hlen1), Hreq.
    exists (facesFrom (random_calls w1) (Z.to_nat (requestedLength w))).
    cbn [dice_container_innerHTML dice_input_value random_calls
         set_innerHTML skip_samples].
    unfold diceMarkup. rewrite displayedFaces_render, facesFrom_length.
    repeat split; [lia | now apply facesFrom_isFace | exact Hin | ].
    rewrite Hcalls. nia.
Qed.

(** ** More on the draw *)

Lemma roundShift_between (p s : Z) :
  0 < s -> p / 2 ^ s <= roundShift p s <= p / 2 ^ s + 1.
Proof.
  intros Hs. unfold roundShift.
  destruct (Z.leb_spec s 0); [lia | ].
  destruct (_ <? _); [lia | ]. destruct (_ <? _); [lia | ].
  destruct (Z.even _); lia.
Qed.

Lemma floor_between (a D k : Z) :
  0 < D -> k * D <= a <= (k + 1) * D ->
  (a / D = k \/ a / D = k + 1) /\ (a / D = k + 1 -> a = (k + 1) * D).
Proof.
  intros HD [Hlo Hhi].
  assert (H1 : k <= a / D) by (apply Z.div_le_lower_bound; lia).
  assert (H2 : a / D <= k + 1) by (apply Z.div_le_upper_bound; lia).
  split; [lia | ].
  intros Heq. pose proof (Z.mul_div_le a D HD) as Hle. rewrite Heq in Hle. lia.
Qed.

(** The shift of the product with 6 of a sample below 1, and what it
    says about the sample. *)
Lemma product_shift (m e : Z) :
  0 <= m < 2 ^ 53 -> -1074 <= e -> e < 0 -> m < 2 ^ (- e) ->
  52 < Z.log2 (m * 6) ->
  let s := Z.log2 (m * 6) - 52 in
  1 <= s <= 3
  /\ 2 ^ (52 + s) <= m * 6 < 2 ^ (53 + s)
  /\ 48 <= - (e + s)
  /\ 2 ^ (- e) = 2 ^ (- (e + s)) * 2 ^ s.
Proof.
  intros [Hm0 Hm] He Hneg HmM Hbig s.
  assert (Hp0 : 0 < m * 6).
  { destruct (Z.eq_dec m 0) as [-> | Hnz]; [simpl in Hbig; lia | lia]. }
  pose proof (Z.log2_spec (m * 6) Hp0) as [Hlo Hhi].
  assert (Hlog : Z.log2 (m * 6) < 56).
  { apply Z.log2_lt_pow2; [exact Hp0 | ].
    change (2 ^ 56) with (8 * 2 ^ 53). lia. }
  assert (Hs : 1 <= s <= 3) by (subst s; lia).
  replace (52 + s) with (Z.log2 (m * 6)) by (subst s; lia).
  replace (53 + s) with (Z.succ (Z.log2 (m * 6))) by (subst s; lia).
  assert (H53 : 2 ^ 53 <= m * 6).
  { eapply Z.le_trans; [ | exact Hlo]. apply Z.pow_le_mono_r; lia. }
  assert (He51 : 51 <= - e).
  { assert (2 ^ 53 < 2 ^ (3 - e)).
    { replace (3 - e) with (3 + - e) by lia.
      rewrite Z.pow_add_r by lia. change (2 ^ 3) with 8. lia. }
    assert (53 < 3 - e) by (apply (Z.pow_lt_mono_r_iff 2); lia).
    lia. }
  repeat split; try lia.
  rewrite <- Z.pow_add_r by lia. f_equal. lia.
Qed.

Lemma Qfloor_times_6 (m e : Z) :
  e < 0 ->
  Qfloor (valueOf (mkBinary64 m e) * 6) = m * 6 / 2 ^ (- e).
Proof.
  intros He.
  assert (HM : 0 < 2 ^ (- e)) by (apply Z.pow_pos_nonneg; lia).
  rewrite valueOf_neg_exp by exact He.
  unfold Qmult; simpl. now rewrite Pos.mul_1_r, Z2Pos.id.
Qed.

(** The floor of the product as the host computes it, for a sample
    below 1 with a negative exponent. *)
Lemma floor_of_product (m e : Z) :
  0 <= m < 2 ^ 53 -> -1074 <= e -> e < 0 -> m < 2 ^ (- e) ->
  let s := Z.max 0 (Z.log2 (m * 6) - 52) in
  Qfloor (valueOf (Number_multiply (mkBinary64 m e) (ofInteger 6)))
  = roundShift (m * 6) s / 2 ^ (- (e + s))
  /\ (valueOf (Number_multiply (mkBinary64 m e) (ofInteger 6))
      == roundShift (m * 6) s # Z.to_pos (2 ^ (- (e + s))))%Q
  /\ e + s < 0.
Proof.
  intros Hm He Hneg HmM s.
  unfold Number_multiply, ofInteger; cbn [significand exponent].
  rewrite !Z.add_0_r.
  replace (Z.max (Z.max 0 (Z.log2 (m * 6) + 1 - 53)) (-1074 - e))
    with s by (subst s; lia).
  assert (Hes : e + s < 0).
  { destruct (Z.le_gt_cases (Z.log2 (m * 6)) 52) as [Hsmall | Hbig].
    - subst s. lia.
    - pose proof (product_shift m e Hm He Hneg HmM Hbig) as (Hs & _ & H48 & _).
      subst s. lia. }
  assert (HD : 0 < 2 ^ (- (e + s))) by (apply Z.pow_pos_nonneg; lia).
  destruct (Z.eqb_spec (roundShift (m * 6) s) (2 ^ 53)) as [Heq | _].
  - assert (Hbig : 52 < Z.log2 (m * 6)).
    { destruct (Z.le_gt_cases (Z.log2 (m * 6)) 52) as [Hsmall | H]; [ | lia].
      exfalso. replace s with 0 in Heq by (subst s; lia).
      change (roundShift (m * 6) 0) with (m * 6) in Heq.
      assert (m * 6 < 2 ^ 53); [ | lia].
      destruct (Z.eq_dec m 0) as [-> | Hnz]; [reflexivity | ].
      apply Z.log2_lt_pow2; lia. }
    pose proof (product_shift m e Hm He Hneg HmM Hbig) as (Hs & _ & H48 & _).
    cbv zeta in Hs, H48.
    replace (Z.log2 (m * 6) - 52) with s in Hs, H48 by (subst s; lia).
    assert (Hneg' : e + s + 1 < 0) by lia.
    assert (Hsplit : 2 ^ (- (e + s)) = 2 * 2 ^ (- (e + s + 1))).
    { replace (- (e + s)) with (Z.succ (- (e + s + 1))) by lia.
      apply Z.pow_succ_r. lia. }
    assert (HD' : 0 < 2 ^ (- (e + s + 1))) by lia.
    rewrite valueOf_neg_exp by exact Hneg'.
    rewrite Qfloor_fraction by exact HD'.
    rewrite Heq, Hsplit. change (2 ^ 53) with (2 * 2 ^ 52).
    split; [ | split; [ | exact Hes]].
    + rewrite Z.div_mul_cancel_l; lia.
    + unfold Qeq; cbn [Qnum Qden]. rewrite !Z2Pos.id by lia. ring.
  - rewrite valueOf_neg_exp by exact Hes.
    rewrite Qfloor_fraction by exact HD.
    split; [reflexivity | split; [reflexivity | exact Hes]].
Qed.

Lemma faceOf_near_exact (r : binary64) :
  isBinary64 r -> (valueOf r < 1)%Q ->
  let exactFace := Qfloor (valueOf r * 6) + 1 in
  (faceOf r = exactFace \/ faceOf r = exactFace + 1)
  /\ (faceOf r = exactFace + 1 ->
      (valueOf (Number_multiply r (ofInteger 6)) == inject_Z exactFace)%Q).
Proof.
  destruct r as [m e]. unfold isBinary64.
  intros [[Hm0 Hm] [He He']] Hlt. cbn [significand exponent] in *.
  set (exactFace := Qfloor (valueOf (mkBinary64 m e) * 6) + 1).
  destruct (Z.le_gt_cases (Z.log2 (m * 6)) 52) as [Hsmall | Hbig].
  - (* the product is exact *)
    assert (Hfit : m * 6 < 2 ^ 53).
    { destruct (Z.eq_dec m 0) as [-> | Hnz]; [reflexivity | ].
      apply Z.log2_lt_pow2; lia. }
    assert (Heq : faceOf (mkBinary64 m e) = exactFace).
    { unfold faceOf, Math_floor, exactFace. f_equal. apply Qfloor_comp.
      apply multiply_six_exact; [unfold isBinary64; cbn [significand exponent]; lia | exact Hfit]. }
    split; [now left | lia].
  - (* the product is rounded *)
    assert (Hneg : e < 0).
    { destruct (Z.le_gt_cases 0 e) as [Hpos | H]; [ | exact H]. exfalso.
      rewrite valueOf_nonneg_exp in Hlt by exact Hpos.
      assert (Hpow : 0 < 2 ^ e) by (apply Z.pow_pos_nonneg; lia).
      unfold Qlt in Hlt; simpl in Hlt.
      assert (m = 0) by nia. subst m. simpl in Hbig. lia. }
    assert (HM : 0 < 2 ^ (- e)) by (apply Z.pow_pos_nonneg; lia).
    assert (HmM : m < 2 ^ (- e)).
    { rewrite valueOf_neg_exp in Hlt by exact Hneg.
      unfold Qlt in Hlt; simpl in Hlt. rewrite Z2Pos.id in Hlt by exact HM. lia. }
    pose proof (floor_of_product m e (conj Hm0 Hm) He Hneg HmM) as Hfl.
    pose proof (product_shift m e (conj Hm0 Hm) He Hneg HmM Hbig) as Hsh.
    cbv zeta in Hfl, Hsh.
    replace (Z.max 0 (Z.log2 (m * 6) - 52)) with (Z.log2 (m * 6) - 52) in Hfl by lia.
    set (s := Z.log2 (m * 6) - 52) in *.
    destruct Hfl as (Hfloor & Hval & Hes).
    destruct Hsh as (Hs & _ & H48 & HMD).
    assert (HD : 0 < 2 ^ (- (e + s))) by (apply Z.pow_pos_nonneg; lia).
    assert (HS : 0 < 2 ^ s) by (apply Z.pow_pos_nonneg; lia).
    pose proof (roundShift_between (m * 6) s ltac:(lia)) as Hq.
    set (q := roundShift (m * 6) s) in *.
    set (D := 2 ^ (- (e + s))) in *.
    set (k := m * 6 / 2 ^ (- e)).
    assert (Hk : exactFace = k + 1).
    { unfold exactFace, k. now rewrite Qfloor_times_6. }
    pose proof (Z.div_mod (m * 6) (2 ^ (- e)) ltac:(lia)) as Hdm.
    pose proof (Z.mod_pos_bound (m * 6) (2 ^ (- e)) HM) as Hmod.
    fold k in Hdm.
    assert (Hklo : k * 2 ^ (- e) <= m * 6) by lia.
    assert (Hkhi : m * 6 < (k + 1) * 2 ^ (- e)) by lia.
    clear Hdm Hmod.
    rewrite HMD in Hklo, Hkhi.
    assert (Hd1 : k * D <= m * 6 / 2 ^ s).
    { apply Z.div_le_lower_bound; [exact HS | lia]. }
    assert (Hd2 : m * 6 / 2 ^ s < (k + 1) * D).
    { apply Z.div_lt_upper_bound; [exact HS | lia]. }
    destruct (floor_between q D k HD ltac:(lia)) as [Hcases Hnext].
    unfold faceOf, Math_floor. rewrite Hfloor, Hk.
    split; [lia | ].
    intros Hface. assert (Hq' : q = (k + 1) * D) by (apply Hnext; lia).
    rewrite Hval. unfold Qeq; cbn [Qnum Qden inject_Z].
    rewrite Z2Pos.id by exact HD. lia.
Qed.

Lemma roundShift_reaches_even (p s T : Z) :
  0 < s -> Z.even T = true ->
  T * 2 ^ s - 2 ^ (s - 1) <= p ->
  T <= roundShift p s.
Proof.
  intros Hs HT Hp. unfold roundShift.
  destruct (Z.leb_spec s 0) as [H0 | _]; [lia | ].
  assert (Hpow : 2 ^ s = 2 * 2 ^ (s - 1)).
  { replace s with (Z.succ (s - 1)) at 1 by lia. apply Z.pow_succ_r. lia. }
  assert (Hhalf : 0 < 2 ^ (s - 1)) by (apply Z.pow_pos_nonneg; lia).
  pose proof (Z.div_mod p (2 ^ s) ltac:(lia)) as Hdm.
  pose proof (Z.mod_pos_bound p (2 ^ s) ltac:(lia)) as Hrem.
  set (d := p / 2 ^ s) in *. set (rem := p mod 2 ^ s) in *.
  set (h := 2 ^ (s - 1)) in *.
  destruct (Z.le_gt_cases T d) as [Hd | Hd].
  - destruct (_ <? _); [lia | ]. destruct (_ <? _); [lia | ].
    destruct (Z.even d); lia.
  - assert (Hd1 : d = T - 1) by nia.
    assert (Hr : h <= rem) by nia.
    destruct (Z.ltb_spec rem h); [lia | ].
    destruct (Z.ltb_spec h rem); [lia | ].
    assert (Hodd : Z.even d = false).
    { rewrite Hd1. replace T with (Z.succ (T - 1)) in HT by lia.
      rewrite Z.even_succ in HT. now rewrite <- Z.negb_odd, HT. }
    rewrite Hodd. lia.
Qed.

(** Two samples in order, the smaller one with a product that rounds up
    to the integer K: the product of the larger one is not exact. *)
Lemma above_a_rounded_product_exact (p1 p2 a b s1 K : Z) :
  0 <= a -> 0 <= b -> 1 <= s1 ->
  p1 * 2 ^ b <= p2 * 2 ^ a ->
  K * 2 ^ a <= p1 + 2 ^ (s1 - 1) ->
  2 ^ (52 + s1) <= p1 ->
  p2 < 2 ^ 53 -> p2 < K * 2 ^ b -> False.
Proof.
  intros Ha Hb Hs H1 H2 H3 H4 H5.
  assert (HA : 0 < 2 ^ a) by (apply Z.pow_pos_nonneg; lia).
  assert (HB : 0 < 2 ^ b) by (apply Z.pow_pos_nonneg; lia).
  assert (Hh : 0 < 2 ^ (s1 - 1)) by (apply Z.pow_pos_nonneg; lia).
  assert (Hle : 2 ^ a <= 2 ^ (s1 - 1) * 2 ^ b) by nia.
  rewrite <- Z.pow_add_r in Hle by lia.
  apply Z.pow_le_mono_r_iff in Hle; [ | lia | lia].
  assert (Hlt : 2 ^ (52 + s1) * 2 ^ b < 2 ^ 53 * 2 ^ a) by nia.
  rewrite <- !Z.pow_add_r in Hlt by lia.
  apply Z.pow_lt_mono_r_iff in Hlt; lia.
Qed.

Lemma above_a_rounded_product_rounded (p1 p2 a b s1 s2 K : Z) :
  0 <= a -> 0 <= b -> 1 <= s1 -> 1 <= s2 ->
  p1 * 2 ^ b <= p2 * 2 ^ a ->
  K * 2 ^ a <= p1 + 2 ^ (s1 - 1) ->
  2 ^ (52 + s1) <= p1 ->
  p2 < 2 ^ (53 + s2) ->
  K * 2 ^ b - 2 ^ (s2 - 1) <= p2.
Proof.
  intros Ha Hb Hs1 Hs2 H1 H2 H3 H4.
  assert (HA : 0 < 2 ^ a) by (apply Z.pow_pos_nonneg; lia).
  assert (HB : 0 < 2 ^ b) by (apply Z.pow_pos_nonneg; lia).
  assert (Hh1 : 0 < 2 ^ (s1 - 1)) by (apply Z.pow_pos_nonneg; lia).
  assert (Hh2 : 0 < 2 ^ (s2 - 1)) by (apply Z.pow_pos_nonneg; lia).
  assert (Hgrid : s1 + b <= s2 + a).
  { assert (Hlt : 2 ^ (52 + s1) * 2 ^ b < 2 ^ (53 + s2) * 2 ^ a) by nia.
    rewrite <- !Z.pow_add_r in Hlt by lia.
    apply Z.pow_lt_mono_r_iff in Hlt; lia. }
  assert (Hpow : 2 ^ (s1 - 1) * 2 ^ b <= 2 ^ (s2 - 1) * 2 ^ a).
  { rewrite <- !Z.pow_add_r by lia. apply Z.pow_le_mono_r; lia. }
  assert (Hmul : (K * 2 ^ b - p2) * 2 ^ a <= 2 ^ (s2 - 1) * 2 ^ a) by nia.
  apply Z.mul_le_mono_pos_r in Hmul; lia.
Qed.

Lemma below_one_cases (m e : Z) :
  0 <= m -> (valueOf (mkBinary64 m e) < 1)%Q ->
  m = 0 \/ (e < 0 /\ m < 2 ^ (- e)).
Proof.
  intros Hm Hlt.
  destruct (Z.le_gt_cases 0 e) as [Hpos | Hneg].
  - left. rewrite valueOf_nonneg_exp in Hlt by exact Hpos.
    assert (Hpow : 0 < 2 ^ e) by (apply Z.pow_pos_nonneg; lia).
    unfold Qlt in Hlt; simpl in Hlt. nia.
  - right. split; [exact Hneg | ].
    assert (HM : 0 < 2 ^ (- e)) by (apply Z.pow_pos_nonneg; lia).
    rewrite valueOf_neg_exp in Hlt by exact Hneg.
    unfold Qlt in Hlt; cbn [Qnum Qden] in Hlt.
    rewrite Z2Pos.id in Hlt by exact HM. lia.
Qed.

Lemma faceOf_exact (r : binary64) :
  isBinary64 r -> Z.log2 (significand r * 6) <= 52 ->
  faceOf r = Qfloor (valueOf r * 6) + 1.
Proof.
  intros Hbin Hlog. unfold faceOf, Math_floor. f_equal.
  apply Qfloor_comp, multiply_six_exact; [exact Hbin | ].
  destruct Hbin as [[Hm0 _] _].
  destruct (Z.eq_dec (significand r) 0) as [-> | Hnz]; [reflexivity | ].
  apply Z.log2_lt_pow2; lia.
Qed.

Lemma valueOf_le_neg_exp (m1 e1 m2 e2 : Z) :
  e1 < 0 -> e2 < 0 ->
  (valueOf (mkBinary64 m1 e1) <= valueOf (mkBinary64 m2 e2))%Q ->
  m1 * 2 ^ (- e2) <= m2 * 2 ^ (- e1).
Proof.
  intros H1 H2 Hle. rewrite !valueOf_neg_exp in Hle by assumption.
  unfold Qle in Hle; cbn [Qnum Qden] in Hle.
  rewrite !Z2Pos.id in Hle by (apply Z.pow_pos_nonneg; lia). exact Hle.
Qed.

Lemma faceOf_monotone_core (r1 r2 : binary64) :
  isBinary64 r1 -> isBinary64 r2 ->
  (valueOf r1 <= valueOf r2)%Q -> (valueOf r2 < 1)%Q ->
  faceOf r1 <= faceOf r2.
Proof.
  intros Hb1 Hb2 Hle Hlt2.
  assert (Hlt1 : (valueOf r1 < 1)%Q) by (eapply Qle_lt_trans; eassumption).
  destruct (faceOf_near_exact r1 Hb1 Hlt1) as [Hc1 _].
  destruct (faceOf_near_exact r2 Hb2 Hlt2) as [Hc2 _].
  assert (HE : Qfloor (valueOf r1 * 6) <= Qfloor (valueOf r2 * 6)).
  { apply Qfloor_resp_le, Qmult_le_compat_r; [exact Hle | discriminate]. }
  destruct Hc1 as [Hc1 | Hc1]; [lia | ].
  destruct (Z.eq_dec (Qfloor (valueOf r1 * 6)) (Qfloor (valueOf r2 * 6)))
    as [Hsame | Hdiff]; [ | lia].
  (* the product of r1 rounds up to an integer that 6 * r2 stays below *)
  destruct (Z.le_gt_cases (Z.log2 (significand r1 * 6)) 52) as [Hex1 | Hbig1].
  { rewrite (faceOf_exact r1 Hb1 Hex1) in Hc1. lia. }
  destruct r1 as [m1 e1], r2 as [m2 e2].
  destruct Hb1 as [Hm1 [He1 He1']], Hb2 as [Hm2 [He2 He2']].
  cbn [significand exponent] in *.
  destruct (below_one_cases m1 e1 ltac:(lia) Hlt1) as [-> | [Hneg1 HmM1]];
    [simpl in Hbig1; lia | ].
  pose proof (product_shift m1 e1 Hm1 He1 Hneg1 HmM1 Hbig1) as Hsh1.
  pose proof (floor_of_product m1 e1 Hm1 He1 Hneg1 HmM1) as Hfl1.
  cbv zeta in Hsh1, Hfl1.
  replace (Z.max 0 (Z.log2 (m1 * 6) - 52)) with (Z.log2 (m1 * 6) - 52)
    in Hfl1 by lia.
  set (s1 := Z.log2 (m1 * 6) - 52) in *.
  destruct Hsh1 as (Hs1 & [Hp1lo _] & H48a & HMD1).
  destruct Hfl1 as (Hfloor1 & _ & _).
  assert (HD1 : 0 < 2 ^ (- (e1 + s1))) by (apply Z.pow_pos_nonneg; lia).
  assert (HS1 : 0 < 2 ^ s1) by (apply Z.pow_pos_nonneg; lia).
  pose proof (roundShift_nearest (m1 * 6) s1 ltac:(lia)) as [_ Hnear1].
  set (K := Qfloor (valueOf (mkBinary64 m1 e1) * 6) + 1) in *.
  assert (HK1 : roundShift (m1 * 6) s1 / 2 ^ (- (e1 + s1)) = K).
  { unfold faceOf, Math_floor in Hc1. rewrite Hfloor1 in Hc1. lia. }
  assert (HqK : K * 2 ^ (- (e1 + s1)) <= roundShift (m1 * 6) s1).
  { rewrite <- HK1, Z.mul_comm. apply Z.mul_div_le. exact HD1. }
  assert (H2 : K * 2 ^ (- e1) <= m1 * 6 + 2 ^ (s1 - 1)).
  { rewrite HMD1. nia. }
  assert (Hm1pos : 0 < m1) by lia.
  destruct (below_one_cases m2 e2 ltac:(lia) Hlt2) as [-> | [Hneg2 HmM2]].
  { exfalso.
    assert (Hv2 : (valueOf (mkBinary64 0 e2) == 0)%Q).
    { unfold valueOf; cbn [significand exponent].
      destruct (0 <=? e2); reflexivity. }
    rewrite Hv2 in Hle. rewrite valueOf_neg_exp in Hle by exact Hneg1.
    unfold Qle in Hle; cbn [Qnum Qden] in Hle. lia. }
  pose proof (valueOf_le_neg_exp m1 e1 m2 e2 Hneg1 Hneg2 Hle) as H1.
  assert (HM2 : 0 < 2 ^ (- e2)) by (apply Z.pow_pos_nonneg; lia).
  assert (Hp2K : m2 * 6 < K * 2 ^ (- e2)).
  { unfold K. rewrite Hsame, Qfloor_times_6 by exact Hneg2.
    pose proof (Z.div_mod (m2 * 6) (2 ^ (- e2)) ltac:(lia)) as Hdm.
    pose proof (Z.mod_pos_bound (m2 * 6) (2 ^ (- e2)) HM2) as Hmod. lia. }
  assert (HK0 : 0 <= K).
  { unfold K. rewrite Qfloor_times_6 by exact Hneg1.
    assert (0 <= m1 * 6 / 2 ^ (- e1)); [ | lia].
    apply Z.div_pos; [lia | apply Z.pow_pos_nonneg; lia]. }
  destruct (Z.le_gt_cases (Z.log2 (m2 * 6)) 52) as [Hex2 | Hbig2].
  - exfalso.
    assert (Hfit : m2 * 6 < 2 ^ 53).
    { destruct (Z.eq_dec m2 0) as [-> | Hnz]; [reflexivity | ].
      apply Z.log2_lt_pow2; lia. }
    apply (above_a_rounded_product_exact (m1 * 6) (m2 * 6) (- e1) (- e2) s1 K);
      try lia.
  - pose proof (product_shift m2 e2 Hm2 He2 Hneg2 HmM2 Hbig2) as Hsh2.
    pose proof (floor_of_product m2 e2 Hm2 He2 Hneg2 HmM2) as Hfl2.
    cbv zeta in Hsh2, Hfl2.
    replace (Z.max 0 (Z.log2 (m2 * 6) - 52)) with (Z.log2 (m2 * 6) - 52)
      in Hfl2 by lia.
    set (s2 := Z.log2 (m2 * 6) - 52) in *.
    destruct Hsh2 as (Hs2 & [_ Hp2hi] & H48b & HMD2).
    destruct Hfl2 as (Hfloor2 & _ & _).
    assert (HD2 : 0 < 2 ^ (- (e2 + s2))) by (apply Z.pow_pos_nonneg; lia).
    pose proof (above_a_rounded_product_rounded
                  (m1 * 6) (m2 * 6) (- e1) (- e2) s1 s2 K
                  ltac:(lia) ltac:(lia) ltac:(lia) ltac:(lia)
                  ltac:(lia) H2 Hp1lo Hp2hi) as Hreach.
    assert (Heven : Z.even (K * 2 ^ (- (e2 + s2))) = true).
    { rewrite Z.even_mul, Z.even_pow by lia. apply orb_true_r. }
    assert (HKq : K * 2 ^ (- (e2 + s2)) <= roundShift (m2 * 6) s2).
    { apply roundShift_reaches_even; [lia | exact Heven | ].
      rewrite <- Z.mul_assoc, <- HMD2. exact Hreach. }
    assert (HF2 : K <= roundShift (m2 * 6) s2 / 2 ^ (- (e2 + s2))).
    { apply Z.div_le_lower_bound; [exact HD2 | lia]. }
    unfold faceOf, Math_floor in *. rewrite Hfloor2. rewrite Hfloor1 in Hc1. lia.
Qed.

(** C5, amended. One draw takes the next sample r of Math.random, a
    binary64 number with 0 <= r < 1, multiplies it by 6 as the host does
    (the binary64 product, rounded to nearest, ties to even), takes the
    floor and adds 1; one sample is consumed and the result is one of
    1, 2, 3, 4, 5, 6.  Against the exact product the draw is
    floor(r * 6) + 1 or the face after it, never less; it is
    floor(r * 6) + 1 whenever six times the significand of r fits 53
    bits, the product being exact then. *)
Theorem generateDiceNumber_draw (w : World) :
  let r := random (random_calls w) in
  isBinary64 r ->
  (valueOf r < 1)%Q ->
  exists draw,
    generateDiceNumber w = Normal draw (skip_samples 1 w)
    /\ draw = Qfloor (valueOf (Number_multiply r (ofInteger 6))) + 1
    /\ In draw [1; 2; 3; 4; 5; 6]
    /\ Qfloor (valueOf r * 6) + 1 <= draw <= Qfloor (valueOf r * 6) + 2
    /\ (significand r * 6 < 2 ^ 53 -> draw = Qfloor (valueOf r * 6) + 1).
Proof.
  intros r Hbin Hr. exists (faceOf r).
  split; [apply generateDiceNumber_faceOf | ].
  split; [reflexivity | ].
  split; [ | split].
  - pose proof (multiply_six_floor r Hbin Hr) as Hfloor.
    unfold faceOf, Math_floor. set (n := Qfloor _) in *.
    assert (Hcases : n = 0 \/ n = 1 \/ n = 2 \/ n = 3 \/ n = 4 \/ n = 5)
      by lia.
    destruct Hcases as [H | [H | [H | [H | [H | H]]]]]; rewrite H; simpl; tauto.
  - destruct (faceOf_near_exact r Hbin Hr) as [Hcases _]. lia.
  - intros Hfit. unfold faceOf, Math_floor. f_equal.
    apply Qfloor_comp. now apply multiply_six_exact.
Qed.

(** X9. The draw is the face that exact arithmetic gives, floor(6 r) + 1,
    or the next one; the next one only when the rounded product is that
    very integer, the exact product lying within half a unit in the last
    place below it. *)
Theorem generateDiceNumber_exact_or_next (w : World) :
  let r := random (random_calls w) in
  isBinary64 r ->
  (valueOf r < 1)%Q ->
  exists face,
    generateDiceNumber w = Normal face (skip_samples 1 w)
    /\ (face = Qfloor (valueOf r * 6) + 1 \/ face = Qfloor (valueOf r * 6) + 2)
    /\ (face = Qfloor (valueOf r * 6) + 2 ->
        (valueOf (Number_multiply r (ofInteger 6))
         == inject_Z (Qfloor (valueOf r * 6) + 1))%Q).
Proof.
  intros r Hbin Hlt. exists (faceOf r).
  split; [apply generateDiceNumber_faceOf | ].
  destruct (faceOf_near_exact r Hbin Hlt) as [Hcases Hnext].
  split; [lia | ]. intros Hface. apply Hnext. lia.
Qed.

(** X10. A larger sample never gives a smaller face: of two draws, the
    one from the larger sample is the larger or the same. *)
Theorem generateDiceNumber_monotone (w1 w2 : World) :
  let r1 := random (random_calls w1) in
  let r2 := random (random_calls w2) in
  isBinary64 r1 -> isBinary64 r2 ->
  (valueOf r1 <= valueOf r2)%Q -> (valueOf r2 < 1)%Q ->
  exists face1 face2,
    generateDiceNumber w1 = Normal face1 (skip_samples 1 w1)
    /\ generateDiceNumber w2 = Normal face2 (skip_samples 1 w2)
    /\ face1 <= face2.
Proof.
  intros r1 r2 Hb1 Hb2 Hle Hlt.
  exists (faceOf r1), (faceOf r2).
  split; [apply generateDiceNumber_faceOf | ].
  split; [apply generateDiceNumber_faceOf | ].
  now apply faceOf_monotone_core.
Qed.

(** ** On a document that lacks an element *)

Lemma with_samples_same (d : Document) : with_samples (samples_drawn d) d = d.
Proof. now destruct d. Qed.

Lemma generateDiceNumbers_small_at (v : value) (h s : string) (c : nat) :
  ToLength (ToNumber v) <= maxArrayLength ->
  generateDiceNumbers v (mkWorld h s c)
  = Normal (facesFrom c (Z.to_nat (ToLength (ToNumber v))))
           (mkWorld h s (c + Z.to_nat (ToLength (ToNumber v)))).
Proof. intros Hlen. now rewrite generateDiceNumbers_small. Qed.

Lemma elementFree_generate_small (v : value) (d : Document) :
  ToLength (ToNumber v) <= maxArrayLength ->
  elementFree (generateDiceNumbers v) d
  = Returned (facesFrom (samples_drawn d) (Z.to_nat (ToLength (ToNumber v))))
      (with_samples (samples_drawn d + Z.to_nat (ToLength (ToNumber v))) d).
Proof.
  intros Hlen. unfold elementFree.
  now rewrite generateDiceNumbers_small_at.
Qed.

Lemma elementFree_generate_large (v : value) (d : Document) :
  maxArrayLength < ToLength (ToNumber v) ->
  elementFree (generateDiceNumbers v) d = Aborted (HostError RangeError) d.
Proof.
  intros Hlen. unfold elementFree.
  rewrite generateDiceNumbers_large by exact Hlen.
  cbn [random_calls]. now rewrite with_samples_same.
Qed.

(** On a document that has the dice container and the count input, the
    three functions that touch the page do what they do in a world: same
    completion, same markup, same input value, same samples consumed. *)
Lemma with_both_elements (w : World) (diceNumbers : list Z) :
  rollDice_in (document_of w) = outcome_of (rollDice w)
  /\ resetDice_in (document_of w) = outcome_of (resetDice w)
  /\ displayDiceNumbers_in diceNumbers (document_of w)
     = outcome_of (displayDiceNumbers diceNumbers w).
Proof.
  split; [ | split; reflexivity].
  unfold rollDice_in, dom_bind, read_dice_input_value.
  cbn [document_of input_value].
  destruct (Z.le_gt_cases (requestedLength w) maxArrayLength) as [H | H].
  - rewrite (rollDice_small w H).
    rewrite elementFree_generate_small by exact H. reflexivity.
  - rewrite (rollDice_large w H).
    rewrite elementFree_generate_large by exact H. reflexivity.
Qed.

(** X12. What a roll does on a document lacking an element, in the order
    the script reaches the elements. Without the count input it throws a
    TypeError at once and changes nothing. With the input, a count beyond
    the array limit throws the RangeError and changes nothing, container
    or not. With the input but without the dice container, a count within
    the limit has its dice drawn and the samples consumed before the
    TypeError is thrown. *)
Theorem rollDice_on_incomplete_document (d : Document) :
  (input_value d = None -> rollDice_in d = Aborted TypeError d)
  /\ (forall v,
        input_value d = Some v ->
        maxArrayLength < ToLength (StringToNumber v) ->
        rollDice_in d = Aborted (HostError RangeError) d)
  /\ (forall v,
        input_value d = Some v ->
        ToLength (StringToNumber v) <= maxArrayLength ->
        container_innerHTML d = None ->
        rollDice_in d
        = Aborted TypeError
            (with_samples
               (samples_drawn d + Z.to_nat (ToLength (StringToNumber v))) d)).
Proof.
  unfold rollDice_in, dom_bind, read_dice_input_value.
  split; [ | split].
  - intros Hin. now rewrite Hin.
  - intros v Hin Hlen. rewrite Hin.
    now rewrite (elementFree_generate_large (Str v) d Hlen).
  - intros v Hin Hlen Hcont. rewrite Hin.
    rewrite (elementFree_generate_small (Str v) d Hlen).
    unfold displayDiceNumbers_in, write_dice_container_innerHTML.
    cbn [with_samples container_innerHTML]. now rewrite Hcont.
Qed.

(** X13. A roll completes on a document exactly when the document has
    both elements and the count coerces to a length within the array
    limit. *)
Theorem rollDice_in_completes (d : Document) :
  (exists d', rollDice_in d = Returned tt d')
  <-> exists html v,
        container_innerHTML d = Some html
        /\ input_value d = Some v
        /\ ToLength (StringToNumber v) <= maxArrayLength.
Proof.
  unfold rollDice_in, dom_bind, read_dice_input_value.
  split.
  - intros [d' Hroll].
    destruct (input_value d) as [v | ] eqn:Hin; [ | discriminate].
    destruct (Z.le_gt_cases (ToLength (StringToNumber v)) maxArrayLength)
      as [Hlen | Hlen].
    + rewrite (elementFree_generate_small (Str v) d Hlen) in Hroll.
      unfold displayDiceNumbers_in, write_dice_container_innerHTML in Hroll.
      cbn [with_samples container_innerHTML] in Hroll.
      destruct (container_innerHTML d) as [html | ]; [ | discriminate].
      exists html, v. auto.
    + rewrite (elementFree_generate_large (Str v) d Hlen) in Hroll.
      discriminate.
  - intros (html & v & Hcont & Hin & Hlen). rewrite Hin.
    rewrite (elementFree_generate_small (Str v) d Hlen).
    unfold displayDiceNumbers_in, write_dice_container_innerHTML.
    cbn [with_samples container_innerHTML]. rewrite Hcont. eauto.
Qed.

(** X14. What a reset does on a document lacking an element. Without
    the dice container it throws a TypeError before it reaches the input
    field, whose value stays. With the container but without the count
    input it empties the display and then throws the TypeError. *)
Theorem resetDice_on_incomplete_document (d : Document) :
  (container_innerHTML d = None ->
   resetDice_in d = Aborted TypeError d
   /\ input_value (left_by (resetDice_in d)) = input_value d)
  /\ (forall html,
        container_innerHTML d = Some html ->
        input_value d = None ->
        resetDice_in d
        = Aborted TypeError (mkDocument (Some ""%string) None (samples_drawn d))).
Proof.
  unfold resetDice_in, dom_bind, write_dice_container_innerHTML,
    write_dice_input_value.
  split.
  - intros Hcont. rewrite Hcont. split; reflexivity.
  - intros html Hcont Hin. rewrite Hcont. cbn [input_value]. now rewrite Hin.
Qed.

End DiceRoller.

(** ** The script at work on concrete inputs *)

Lemma cyclingSamples_unit : unitSamples cyclingSamples.
Proof.
  intros k. pose proof (Nat.mod_upper_bound k 6) as Hk.
  unfold cyclingSamples, isBinary64, valueOf, Qlt;
    cbn [significand exponent Qnum Qden Z.leb Z.compare].
  change (Z.pos (Z.to_pos (2 ^ (- -6)))) with 64.
  change (2 ^ 53) with 9007199254740992. lia.
Qed.

Example roll_three :
  rollDice cyclingSamples StringToNumber_integers (mkWorld "" "3" 0)
  = Normal tt (mkWorld
      (openTag ++ "1" ++ closeTag ++ openTag ++ "2" ++ closeTag
       ++ openTag ++ "3" ++ closeTag) "3" 3).
Proof. vm_compute. reflexivity. Qed.

Example read_three :
  displayedFaces (dice_container_innerHTML
    (run (rollDice cyclingSamples StringToNumber_integers) (mkWorld "" "3" 4)))
  = Some [5; 6; 1].
Proof. vm_compute. reflexivity. Qed.

(** The largest binary64 number below 1/6 times 6 is half a unit in the
    last place below 1, and rounds to 1; the largest one below 1 times 6
    rounds to the largest one below 6. *)
Example products_are_rounded :
  (valueOf (Number_multiply (mkBinary64 6004799503160661 (-55)) (ofInteger 6))
   == 1)%Q
  /\ (valueOf (Number_multiply (mkBinary64 (2 ^ 53 - 1) (-53)) (ofInteger 6))
      == 6 - (1 # 2 ^ 50))%Q.
Proof. split; vm_compute; reflexivity. Qed.

Example roll_of_a_fraction :
  ToLength (Finite (5 # 2)) = 2 /\ ToLength (Finite (-5 # 2)) = 0
  /\ ToLength (Infinity false) = 9007199254740991.
Proof. repeat split. Qed.

(** C5 at the fifth sample of the cycle, 44/64: the draw is 5, as with
    the exact product. *)
Lemma generateDiceNumber_draw_witness :
  isBinary64 (cyclingSamples 4)
  /\ (valueOf (cyclingSamples 4) < 1)%Q
  /\ exists draw,
       generateDiceNumber cyclingSamples (mkWorld "" "" 4)
       = Normal draw (mkWorld "" "" 5)
       /\ draw
          = Qfloor (valueOf (Number_multiply (cyclingSamples 4) (ofInteger 6)))
            + 1
       /\ In draw [1; 2; 3; 4; 5; 6]
       /\ Qfloor (valueOf (cyclingSamples 4) * 6) + 1 <= draw
          <= Qfloor (valueOf (cyclingSamples 4) * 6) + 2
       /\ (significand (cyclingSamples 4) * 6 < 2 ^ 53 ->
           draw = Qfloor (valueOf (cyclingSamples 4) * 6) + 1).
Proof.
  destruct (cyclingSamples_unit 4%nat) as [Hbin Hlt].
  split; [exact Hbin | split; [exact Hlt | ]].
  exact (generateDiceNumber_draw cyclingSamples (mkWorld "" "" 4) Hbin Hlt).
Defined.

(** C5 as stated fails at the sample 0.8333333333333333, the largest
    binary64 number below 5/6: six times it lies half a unit in the last
    place below 5 and the host rounds it to 5, so the draw is 6 where
    floor(r * 6) + 1 is 5. *)
Lemma generateDiceNumber_above_exact_floor :
  isBinary64 largestBelowFiveSixths
  /\ (valueOf largestBelowFiveSixths < 1)%Q
  /\ generateDiceNumber (fun _ => largestBelowFiveSixths) (mkWorld "" "" 0)
     = Normal 6 (mkWorld "" "" 1)
  /\ Qfloor (valueOf largestBelowFiveSixths * 6) + 1 = 5
  /\ ~ (generateDiceNumber (fun _ => largestBelowFiveSixths) (mkWorld "" "" 0)
        = Normal (Qfloor (valueOf largestBelowFiveSixths * 6) + 1)
                 (mkWorld "" "" 1)).
Proof.
  assert (Hdraw : generateDiceNumber (fun _ => largestBelowFiveSixths)
                    (mkWorld "" "" 0) = Normal 6 (mkWorld "" "" 1))
    by (vm_compute; reflexivity).
  assert (Hexact : Qfloor (valueOf largestBelowFiveSixths * 6) + 1 = 5)
    by (vm_compute; reflexivity).
  split; [vm_compute; repeat split; congruence | ].
  split; [vm_compute; reflexivity | ].
  split; [exact Hdraw | split; [exact Hexact | ]].
  rewrite Hdraw, Hexact. discriminate.
Qed.

(** C1 at N = 3. *)
Lemma generateDiceNumbers_faces_witness :
  unitSamples cyclingSamples
  /\ 0 <= 3 <= maxArrayLength
  /\ exists faces,
       generateDiceNumbers cyclingSamples StringToNumber_integers
         (Num (Finite (inject_Z 3))) (mkWorld "" "" 0)
       = Normal faces (mkWorld "" "" 3)
       /\ Z.of_nat (length faces) = 3
       /\ Forall isFace faces.
Proof.
  assert (H3 : 0 <= 3 <= maxArrayLength) by (vm_compute; split; congruence).
  split; [exact cyclingSamples_unit | split; [exact H3 | ]].
  exact (generateDiceNumbers_faces cyclingSamples StringToNumber_integers
           3 (mkWorld "" "" 0) cyclingSamples_unit H3).
Defined.

(** C1 as stated fails at N = 2^32: the array construction throws. *)
Lemma generateDiceNumbers_above_array_limit :
  generateDiceNumbers cyclingSamples StringToNumber_integers
    (Num (Finite (inject_Z 4294967296))) (mkWorld "" "" 0)
  = Throw RangeError (mkWorld "" "" 0)
  /\ ~ (exists faces w',
          generateDiceNumbers cyclingSamples StringToNumber_integers
            (Num (Finite (inject_Z 4294967296))) (mkWorld "" "" 0)
          = Normal faces w'
          /\ Z.of_nat (length faces) = 4294967296).
Proof.
  assert (H : generateDiceNumbers cyclingSamples StringToNumber_integers
                (Num (Finite (inject_Z 4294967296))) (mkWorld "" "" 0)
              = Throw RangeError (mkWorld "" "" 0)).
  { apply generateDiceNumbers_large. vm_compute. reflexivity. }
  split; [exact H | ].
  intros (faces & w' & Hgen & _). rewrite H in Hgen. discriminate.
Qed.

(** C10 on the roll result 3, 1, 6, rendered over an older display. *)
Lemma displayDiceNumbers_blocks_witness :
  Forall isSafeInteger [3; 1; 6]
  /\ completesNormally (displayDiceNumbers [3; 1; 6] (mkWorld "old" "3" 3))
  /\ displayedFaces
       (dice_container_innerHTML
          (run (displayDiceNumbers [3; 1; 6]) (mkWorld "old" "3" 3)))
     = Some [3; 1; 6]
  /\ exists blocks,
       dice_container_innerHTML
         (run (displayDiceNumbers [3; 1; 6]) (mkWorld "old" "3" 3))
       = String.concat "" blocks
       /\ length blocks = length [3; 1; 6]
       /\ forall k number,
            nth_error [3; 1; 6] k = Some number ->
            nth_error blocks k
            = Some (openTag ++ NumberToString number ++ closeTag)%string.
Proof.
  assert (H : Forall isSafeInteger [3; 1; 6]).
  { repeat constructor; vm_compute; congruence. }
  split; [exact H | ].
  exact (displayDiceNumbers_blocks [3; 1; 6] (mkWorld "old" "3" 3) H).
Defined.

(** C4 as stated fails on the count 4294967296: the roll throws. *)
Lemma rollDice_throws_on_huge_count :
  rollDice cyclingSamples StringToNumber_integers
    (mkWorld "" "4294967296" 0)
  = Throw RangeError (mkWorld "" "4294967296" 0)
  /\ ~ completesNormally
         (rollDice cyclingSamples StringToNumber_integers
            (mkWorld "" "4294967296" 0)).
Proof.
  assert (H : rollDice cyclingSamples StringToNumber_integers
                (mkWorld "" "4294967296" 0)
              = Throw RangeError (mkWorld "" "4294967296" 0)).
  { apply rollDice_large. vm_compute. reflexivity. }
  split; [exact H | ]. rewrite H. simpl. tauto.
Qed.

(** C4 on the counts -2 and abc: the raw string reaches the generator and
    the roll completes. *)
Lemma rollDice_unguarded_witness :
  negative (StringToNumber_integers "-2")
  /\ isNaN (StringToNumber_integers "abc")
  /\ completesNormally
       (rollDice cyclingSamples StringToNumber_integers (mkWorld "old" "-2" 0))
  /\ completesNormally
       (rollDice cyclingSamples StringToNumber_integers (mkWorld "old" "abc" 0)).
Proof.
  assert (Hneg : negative (StringToNumber_integers "-2")) by reflexivity.
  assert (Hnan : isNaN (StringToNumber_integers "abc")) by reflexivity.
  split; [exact Hneg | split; [exact Hnan | split]].
  - exact (proj1 (proj2 (rollDice_unguarded cyclingSamples
                           StringToNumber_integers (mkWorld "old" "-2" 0)))
             (or_intror Hneg)).
  - exact (proj1 (proj2 (rollDice_unguarded cyclingSamples
                           StringToNumber_integers (mkWorld "old" "abc" 0)))
             (or_introl Hnan)).
Defined.

(** C9 on an empty input field, over an earlier display. *)
Lemma rollDice_empty_count_witness :
  StringToNumber_integers "" = Finite 0
  /\ (dice_input_value (mkWorld "old" "" 2) = ""%string
      \/ isNaN (StringToNumber_integers (dice_input_value (mkWorld "old" "" 2)))
      \/ nonPositive
           (StringToNumber_integers (dice_input_value (mkWorld "old" "" 2))))
  /\ requestedLength StringToNumber_integers (mkWorld "old" "" 2) = 0
  /\ generateDiceNumbers cyclingSamples StringToNumber_integers
       (Str "") (mkWorld "old" "" 2)
     = Normal [] (mkWorld "old" "" 2)
  /\ rollDice cyclingSamples StringToNumber_integers (mkWorld "old" "" 2)
     = Normal tt (mkWorld "" "" 2)
  /\ displayedFaces (dice_container_innerHTML
       (run (rollDice cyclingSamples StringToNumber_integers)
            (mkWorld "old" "" 2)))
     = Some [].
Proof.
  split; [reflexivity | split; [left; reflexivity | ]].
  exact (rollDice_empty_count cyclingSamples StringToNumber_integers
           (mkWorld "old" "" 2) eq_refl (or_introl eq_refl)).
Defined.

(** C8 as stated fails for roll: with one die requested, a second click
    on the roll button replaces the face 1 of the first roll by the
    face 2. *)
Lemma rollDice_not_idempotent :
  dice_container_innerHTML
    (click cyclingSamples StringToNumber_integers roll_button
       (mkWorld "" "1" 0))
  = (openTag ++ "1" ++ closeTag)%string
  /\ dice_container_innerHTML
       (click cyclingSamples StringToNumber_integers roll_button
          (click cyclingSamples StringToNumber_integers roll_button
             (mkWorld "" "1" 0)))
     = (openTag ++ "2" ++ closeTag)%string
  /\ page (click cyclingSamples StringToNumber_integers roll_button
             (click cyclingSamples StringToNumber_integers roll_button
                (mkWorld "" "1" 0)))
     <> page (click cyclingSamples StringToNumber_integers roll_button
                (mkWorld "" "1" 0)).
Proof.
  split; [vm_compute; reflexivity | ].
  split; [vm_compute; reflexivity | ].
  vm_compute. discriminate.
Qed.

(** ** The further properties on concrete inputs *)

(** X15. The faces a draw can give are exactly 1 to 6: every draw from a
    binary64 sample of [0,1) is one of them, and each of them is the
    draw of some such sample. *)
Theorem every_face_is_drawn (f : Z) :
  isFace f
  <-> exists (random : nat -> binary64) (w : World),
        isBinary64 (random (random_calls w))
        /\ (valueOf (random (random_calls w)) < 1)%Q
        /\ generateDiceNumber random w = Normal f (skip_samples 1 w).
Proof.
  split.
  - intros Hf. exists cyclingSamples, (mkWorld "" "" (Z.to_nat (f - 1))).
    destruct (cyclingSamples_unit (Z.to_nat (f - 1))) as [Hbin Hlt].
    split; [exact Hbin | split; [exact Hlt | ]].
    unfold isFace in Hf.
    assert (Hcases : f = 1 \/ f = 2 \/ f = 3 \/ f = 4 \/ f = 5 \/ f = 6) by lia.
    destruct Hcases as [-> | [-> | [-> | [-> | [-> | ->]]]]];
      vm_compute; reflexivity.
  - intros (random & w & Hbin & Hlt & Hdraw).
    rewrite generateDiceNumber_faceOf in Hdraw. injection Hdraw as Hf.
    pose proof (multiply_six_floor _ Hbin Hlt) as Hfloor.
    unfold faceOf, Math_floor in Hf. unfold isFace. lia.
Qed.

Example roll_of_two_and_a_half :
  displayedFaces (dice_container_innerHTML
    (run (rollDice cyclingSamples StringToNumber_with_half)
         (mkWorld "" "2.5" 0)))
  = Some [1; 2].
Proof. vm_compute. reflexivity. Qed.

Example draw_at_largestBelowSixth :
  generateDiceNumber (fun _ => largestBelowSixth) (mkWorld "" "" 0)
  = Normal 2 (mkWorld "" "" 1)
  /\ Qfloor (valueOf largestBelowSixth * 6) + 1 = 1.
Proof. split; vm_compute; reflexivity. Qed.

Example roll_without_container :
  rollDice_in cyclingSamples StringToNumber_integers
    (mkDocument None (Some "2"%string) 0)
  = Aborted TypeError (mkDocument None (Some "2"%string) 2)
  /\ resetDice_in (mkDocument None (Some "2"%string) 0)
     = Aborted TypeError (mkDocument None (Some "2"%string) 0).
Proof. split; vm_compute; reflexivity. Qed.

(** X1 on a roll of three dice. *)
Lemma rollDice_shows_requested_dice_witness :
  unitSamples cyclingSamples
  /\ requestedLength StringToNumber_integers (mkWorld "" "3" 0) <= maxArrayLength
  /\ exists faces,
       generateDiceNumbers cyclingSamples StringToNumber_integers
         (Str (dice_input_value (mkWorld "" "3" 0))) (mkWorld "" "3" 0)
       = Normal faces (skip_samples (length faces) (mkWorld "" "3" 0))
       /\ displayedFaces (dice_container_innerHTML
            (run (rollDice cyclingSamples StringToNumber_integers)
                 (mkWorld "" "3" 0)))
          = Some faces
       /\ Z.of_nat (length faces)
          = requestedLength StringToNumber_integers (mkWorld "" "3" 0)
       /\ Forall isFace faces
       /\ dice_input_value
            (run (rollDice cyclingSamples StringToNumber_integers)
                 (mkWorld "" "3" 0))
          = dice_input_value (mkWorld "" "3" 0)
       /\ random_calls
            (run (rollDice cyclingSamples StringToNumber_integers)
                 (mkWorld "" "3" 0))
          = (random_calls (mkWorld "" "3" 0) + length faces)%nat.
Proof.
  assert (H : requestedLength StringToNumber_integers (mkWorld "" "3" 0)
              <= maxArrayLength) by (vm_compute; congruence).
  split; [exact cyclingSamples_unit | split; [exact H | ]].
  exact (rollDice_shows_requested_dice cyclingSamples StringToNumber_integers
           (mkWorld "" "3" 0) cyclingSamples_unit H).
Defined.

(** X2 at the third die of a roll of three, started after four samples. *)
Lemma generateDiceNumbers_in_sample_order_witness :
  ToLength (ToNumber StringToNumber_integers (Str "3")) <= maxArrayLength
  /\ Z.of_nat 2 < ToLength (ToNumber StringToNumber_integers (Str "3"))
  /\ exists faces w',
       generateDiceNumbers cyclingSamples StringToNumber_integers
         (Str "3") (mkWorld "" "3" 4)
       = Normal faces w'
       /\ nth_error faces 2
          = Some (faceOf (cyclingSamples (random_calls (mkWorld "" "3" 4) + 2))).
Proof.
  assert (H1 : ToLength (ToNumber StringToNumber_integers (Str "3"))
               <= maxArrayLength) by (vm_compute; congruence).
  assert (H2 : Z.of_nat 2 < ToLength (ToNumber StringToNumber_integers (Str "3")))
    by (vm_compute; reflexivity).
  split; [exact H1 | split; [exact H2 | ]].
  exact (generateDiceNumbers_in_sample_order cyclingSamples
           StringToNumber_integers (Str "3") (mkWorld "" "3" 4) 2%nat H1 H2).
Defined.

(** X3 on the count 2.5. *)
Lemma rollDice_truncates_count_witness :
  StringToNumber_with_half (dice_input_value (mkWorld "" "2.5" 0))
  = Finite (5 # 2)
  /\ (0 <= 5 # 2)%Q
  /\ (5 # 2 < inject_Z (2 ^ 32))%Q
  /\ exists faces,
       rollDice cyclingSamples StringToNumber_with_half (mkWorld "" "2.5" 0)
       = Normal tt
           (run (rollDice cyclingSamples StringToNumber_with_half)
                (mkWorld "" "2.5" 0))
       /\ displayedFaces (dice_container_innerHTML
            (run (rollDice cyclingSamples StringToNumber_with_half)
                 (mkWorld "" "2.5" 0)))
          = Some faces
       /\ Z.of_nat (length faces) = Qfloor (5 # 2).
Proof.
  assert (H1 : StringToNumber_with_half (dice_input_value (mkWorld "" "2.5" 0))
               = Finite (5 # 2)) by reflexivity.
  assert (H2 : (0 <= 5 # 2)%Q) by discriminate.
  assert (H3 : (5 # 2 < inject_Z (2 ^ 32))%Q) by reflexivity.
  split; [exact H1 | split; [exact H2 | split; [exact H3 | ]]].
  exact (proj1 (rollDice_truncates_count cyclingSamples StringToNumber_with_half
                  (mkWorld "" "2.5" 0) (5 # 2) H1 H2) H3).
Defined.

(** X4 after a roll of two dice. *)
Lemma rollDice_after_resetDice_witness :
  StringToNumber_integers "" = Finite 0
  /\ rollDice cyclingSamples StringToNumber_integers
       (run resetDice (mkWorld "dice" "2" 2))
     = Normal tt (run resetDice (mkWorld "dice" "2" 2))
  /\ click cyclingSamples StringToNumber_integers roll_button
       (click cyclingSamples StringToNumber_integers reset_button
          (mkWorld "dice" "2" 2))
     = click cyclingSamples StringToNumber_integers reset_button
         (mkWorld "dice" "2" 2).
Proof.
  split; [reflexivity | ].
  exact (rollDice_after_resetDice cyclingSamples StringToNumber_integers
           (mkWorld "dice" "2" 2) eq_refl).
Defined.

(** X5 on the roll result 2, 5. *)
Lemma displayDiceNumbers_injective_witness :
  Forall isSafeInteger [2; 5]
  /\ dice_container_innerHTML (run (displayDiceNumbers [2; 5]) (mkWorld "" "2" 0))
     = dice_container_innerHTML (run (displayDiceNumbers [2; 5]) (mkWorld "x" "" 7))
  /\ [2; 5] = [2; 5].
Proof.
  assert (H : Forall isSafeInteger [2; 5]).
  { repeat constructor; vm_compute; congruence. }
  split; [exact H | split; [reflexivity | ]].
  exact (displayDiceNumbers_injective [2; 5] [2; 5]
           (mkWorld "" "2" 0) (mkWorld "x" "" 7) H H eq_refl).
Defined.

(** X7 on a session with a roll, a reset, a roll that throws and a roll
    of one die. *)
Lemma display_always_shows_faces_witness :
  unitSamples cyclingSamples
  /\ showsFaces (mkWorld "" "" 0)
  /\ showsFaces
       (handle_all cyclingSamples StringToNumber_integers
          [type_count "2"; press roll_button; press reset_button;
           type_count "4294967296"; press roll_button;
           type_count "1"; press roll_button]
          (mkWorld "" "" 0)).
Proof.
  assert (H : showsFaces (mkWorld "" "" 0)).
  { exists []. split; [reflexivity | constructor]. }
  split; [exact cyclingSamples_unit | split; [exact H | ]].
  exact (display_always_shows_faces cyclingSamples StringToNumber_integers
           _ (mkWorld "" "" 0) cyclingSamples_unit H).
Defined.

(** X8 on three rolls of two dice. *)
Lemma repeated_rolls_witness :
  unitSamples cyclingSamples
  /\ requestedLength StringToNumber_integers (mkWorld "" "2" 0) <= maxArrayLength
  /\ exists faces,
       displayedFaces (dice_container_innerHTML
         (handle_all cyclingSamples StringToNumber_integers
            (repeat (press roll_button) 3) (mkWorld "" "2" 0)))
       = Some faces
       /\ Z.of_nat (length faces)
          = requestedLength StringToNumber_integers (mkWorld "" "2" 0)
       /\ Forall isFace faces
       /\ dice_input_value
            (handle_all cyclingSamples StringToNumber_integers
               (repeat (press roll_button) 3) (mkWorld "" "2" 0))
          = dice_input_value (mkWorld "" "2" 0)
       /\ random_calls
            (handle_all cyclingSamples StringToNumber_integers
               (repeat (press roll_button) 3) (mkWorld "" "2" 0))
          = (random_calls (mkWorld "" "2" 0) + 3 * length faces)%nat.
Proof.
  assert (H : requestedLength StringToNumber_integers (mkWorld "" "2" 0)
              <= maxArrayLength) by (vm_compute; congruence).
  split; [exact cyclingSamples_unit | split; [exact H | ]].
  exact (repeated_rolls cyclingSamples StringToNumber_integers 2
           (mkWorld "" "2" 0) cyclingSamples_unit H).
Defined.

(** X9 at the largest binary64 number below 1/6: exact arithmetic gives
    the face 1, the product rounds to 1 and the draw is 2. *)
Lemma generateDiceNumber_exact_or_next_witness :
  isBinary64 largestBelowSixth
  /\ (valueOf largestBelowSixth < 1)%Q
  /\ Qfloor (valueOf largestBelowSixth * 6) + 1 = 1
  /\ exists face,
       generateDiceNumber (fun _ => largestBelowSixth) (mkWorld "" "" 0)
       = Normal face (mkWorld "" "" 1)
       /\ (face = Qfloor (valueOf largestBelowSixth * 6) + 1
           \/ face = Qfloor (valueOf largestBelowSixth * 6) + 2)
       /\ (face = Qfloor (valueOf largestBelowSixth * 6) + 2 ->
           (valueOf (Number_multiply largestBelowSixth (ofInteger 6))
            == inject_Z (Qfloor (valueOf largestBelowSixth * 6) + 1))%Q).
Proof.
  assert (H1 : isBinary64 largestBelowSixth)
    by (vm_compute; repeat split; congruence).
  assert (H2 : (valueOf largestBelowSixth < 1)%Q) by (vm_compute; reflexivity).
  split; [exact H1 | split; [exact H2 | split; [vm_compute; reflexivity | ]]].
  exact (generateDiceNumber_exact_or_next (fun _ => largestBelowSixth)
           (mkWorld "" "" 0) H1 H2).
Defined.

(** X10 on the samples 11/64 and 44/64. *)
Lemma generateDiceNumber_monotone_witness :
  isBinary64 (cyclingSamples 1) /\ isBinary64 (cyclingSamples 4)
  /\ (valueOf (cyclingSamples 1) <= valueOf (cyclingSamples 4))%Q
  /\ (valueOf (cyclingSamples 4) < 1)%Q
  /\ exists face1 face2,
       generateDiceNumber cyclingSamples (mkWorld "" "" 1)
       = Normal face1 (mkWorld "" "" 2)
       /\ generateDiceNumber cyclingSamples (mkWorld "" "" 4)
          = Normal face2 (mkWorld "" "" 5)
       /\ face1 <= face2.
Proof.
  destruct (cyclingSamples_unit 1%nat) as [Hb1 _].
  destruct (cyclingSamples_unit 4%nat) as [Hb4 Hlt4].
  assert (Hle : (valueOf (cyclingSamples 1) <= valueOf (cyclingSamples 4))%Q)
    by (vm_compute; congruence).
  split; [exact Hb1 | split; [exact Hb4 | split; [exact Hle | split; [exact Hlt4 | ]]]].
  exact (generateDiceNumber_monotone cyclingSamples
           (mkWorld "" "" 1) (mkWorld "" "" 4) Hb1 Hb4 Hle Hlt4).
Defined.

(** * Facts about the Base64 checks *)

Module Base64Facts.
Import Base64.

(** ** Matching by derivatives is matching *)

Lemma Matches_Seq_inv (p q : pattern) (l : codeUnits) :
  Matches (Seq p q) l ->
  exists s t, l = s ++ t /\ Matches p s /\ Matches q t.
Proof. intros H. inversion H; subst. eauto. Qed.

Lemma Matches_Alt_inv (p q : pattern) (l : codeUnits) :
  Matches (Alt p q) l -> Matches p l \/ Matches q l.
Proof. intros H. inversion H; subst; auto. Qed.

Lemma Matches_Empty_inv (l : codeUnits) : Matches Empty l -> l = [].
Proof. intros H. now inversion H. Qed.

Lemma Matches_Char_inv (c : ascii) (l : codeUnits) :
  Matches (Char c) l -> l = [N_of_ascii c].
Proof. intros H. now inversion H. Qed.

Lemma Matches_Class_inv (ranges : list (ascii * ascii)) (l : codeUnits) :
  Matches (Class ranges) l -> exists u, l = [u] /\ inClass ranges u = true.
Proof. intros H. inversion H; subst. eauto. Qed.

Lemma Matches_Never_inv (l : codeUnits) : ~ Matches Never l.
Proof. intros H. inversion H. Qed.

Lemma nullable_Matches (p : pattern) : nullable p = true <-> Matches p [].
Proof.
  induction p; simpl.
  - split; [discriminate | intros H; now apply Matches_Never_inv in H].
  - split; [constructor | reflexivity].
  - split; [discriminate | intros H; apply Matches_Char_inv in H; discriminate].
  - split; [discriminate | ].
    intros H. apply Matches_Class_inv in H as (u & H & _). discriminate.
  - rewrite andb_true_iff, IHp1, IHp2. split.
    + intros [H1 H2]. change (@nil N) with (@nil N ++ []). now constructor.
    + intros H. apply Matches_Seq_inv in H as (s & t & Heq & Hs & Ht).
      symmetry in Heq. apply app_eq_nil in Heq as [-> ->]. auto.
  - rewrite orb_true_iff, IHp1, IHp2. split.
    + intros [H | H]; [now apply MAltL | now apply MAltR].
    + apply Matches_Alt_inv.
  - split; [constructor | reflexivity].
Qed.

(** A match of a starred pattern that starts with [u] starts with a match
    of the pattern that starts with [u]. *)
Lemma Matches_Star_cons (p : pattern) (u : N) (s : codeUnits) :
  Matches (Star p) (u :: s) ->
  exists s1 s2, s = s1 ++ s2 /\ Matches p (u :: s1) /\ Matches (Star p) s2.
Proof.
  intros H. remember (Star p) as r eqn:Hr. remember (u :: s) as l eqn:Hl.
  revert s Hl. induction H; try discriminate; intros s' Hl.
  injection Hr as ->.
  destruct s as [ | x s].
  - simpl in Hl. now apply IHMatches2.
  - simpl in Hl. injection Hl as -> <-. eauto.
Qed.

Lemma Matches_Seq_cons (p q : pattern) (u : N) (s : codeUnits) :
  Matches p (u :: s) -> forall t, Matches q t -> Matches (Seq p q) (u :: s ++ t).
Proof.
  intros Hp t Hq. change (u :: s ++ t) with ((u :: s) ++ t). now constructor.
Qed.

Lemma after_Matches (p : pattern) :
  forall u s, Matches (after u p) s <-> Matches p (u :: s).
Proof.
  induction p; intros u s; simpl.
  - split; intros H; now apply Matches_Never_inv in H.
  - split; intros H; [now apply Matches_Never_inv in H | ].
    apply Matches_Empty_inv in H. discriminate.
  - destruct (N.eqb_spec (N_of_ascii c) u) as [<- | Hne]; split; intros H.
    + apply Matches_Empty_inv in H as ->. constructor.
    + apply Matches_Char_inv in H. injection H as ->. constructor.
    + now apply Matches_Never_inv in H.
    + apply Matches_Char_inv in H. congruence.
  - destruct (inClass ranges u) eqn:Hin; split; intros H.
    + apply Matches_Empty_inv in H as ->. now constructor.
    + apply Matches_Class_inv in H as (v & Heq & _). injection Heq as _ ->.
      constructor.
    + now apply Matches_Never_inv in H.
    + apply Matches_Class_inv in H as (v & Heq & Hv).
      injection Heq as -> _. congruence.
  - destruct (nullable p1) eqn:Hnull.
    + split; intros H.
      * apply Matches_Alt_inv in H as [H | H].
        -- apply Matches_Seq_inv in H as (s1 & t & -> & H1 & H2).
           apply Matches_Seq_cons; [now apply IHp1 | assumption].
        -- change (u :: s) with ([] ++ u :: s).
           constructor; [now apply nullable_Matches | now apply IHp2].
      * apply Matches_Seq_inv in H as (s1 & t & Heq & H1 & H2).
        destruct s1 as [ | x s1].
        -- simpl in Heq. subst t. apply MAltR. now apply IHp2.
        -- simpl in Heq. injection Heq as <- ->.
           apply MAltL. constructor; [now apply IHp1 | assumption].
    + split; intros H.
      * apply Matches_Seq_inv in H as (s1 & t & -> & H1 & H2).
        apply Matches_Seq_cons; [now apply IHp1 | assumption].
      * apply Matches_Seq_inv in H as (s1 & t & Heq & H1 & H2).
        destruct s1 as [ | x s1].
        -- apply nullable_Matches in H1. congruence.
        -- simpl in Heq. injection Heq as <- ->.
           constructor; [now apply IHp1 | assumption].
  - split; intros H; apply Matches_Alt_inv in H as [H | H];
      solve [apply MAltL; now apply IHp1 | apply MAltR; now apply IHp2].
  - split; intros H.
    + apply Matches_Seq_inv in H as (s1 & t & -> & H1 & H2).
      change (u :: s1 ++ t) with ((u :: s1) ++ t).
      constructor; [now apply IHp | assumption].
    + apply Matches_Star_cons in H as (s1 & s2 & -> & H1 & H2).
      constructor; [now apply IHp | assumption].
Qed.

Lemma test_Matches (p : pattern) (s : codeUnits) :
  test p s = true <-> Matches p s.
Proof.
  unfold test. revert p. induction s as [ | u s IH]; intros p; simpl.
  - apply nullable_Matches.
  - rewrite IH. apply after_Matches.
Qed.

(** ** What the three patterns match *)

Lemma Matches_Repeat_Class (ranges : list (ascii * ascii)) (n : nat) :
  forall s,
    Matches (Repeat n (Class ranges)) s
    <-> length s = n /\ Forall (fun u => inClass ranges u = true) s.
Proof.
  induction n as [ | n IH]; intros s; simpl.
  - split.
    + intros H. apply Matches_Empty_inv in H as ->. auto.
    + intros [H _]. apply length_zero_iff_nil in H as ->. constructor.
  - split.
    + intros H. apply Matches_Seq_inv in H as (s1 & t & -> & H1 & H2).
      apply Matches_Class_inv in H1 as (u & -> & Hu).
      apply IH in H2 as [Hlen Hall]. simpl. auto.
    + intros [Hlen Hall]. destruct s as [ | u s]; [discriminate | ].
      inversion Hall; subst. injection Hlen as Hlen.
      change (u :: s) with ([u] ++ s).
      constructor; [now constructor | apply IH; auto].
Qed.

Lemma Matches_Repeat_base64Char (n : nat) (s : codeUnits) :
  Matches (Repeat n base64Char) s <-> length s = n /\ Forall isBase64Char s.
Proof. apply Matches_Repeat_Class. Qed.

Lemma Matches_groups (s : codeUnits) :
  Matches (Star (Repeat 4 base64Char)) s
  <-> (exists groups, length s = 4 * groups)%nat /\ Forall isBase64Char s.
Proof.
  split.
  - intros H. remember (Star (Repeat 4 base64Char)) as r eqn:Hr.
    induction H; try discriminate.
    + split; [exists 0%nat; reflexivity | constructor].
    + injection Hr as ->.
      apply (Matches_Repeat_base64Char 4) in H as [Hlen Hall].
      destruct (IHMatches2 eq_refl) as [[k Hk] Hall2].
      split.
      * exists (S k). rewrite length_app. lia.
      * apply Forall_app. split; assumption.
  - intros [[k Hk] Hall]. revert s Hk Hall.
    induction k as [ | k IH]; intros s Hk Hall.
    + destruct s; [constructor | discriminate].
    + destruct s as [ | a [ | b [ | c [ | d s]]]]; simpl in Hk; try lia.
      inversion Hall as [ | ? ? Ha Hall1]; subst.
      inversion Hall1 as [ | ? ? Hb Hall2]; subst.
      inversion Hall2 as [ | ? ? Hc Hall3]; subst.
      inversion Hall3 as [ | ? ? Hd Hall4]; subst.
      change (a :: b :: c :: d :: s) with ([a; b; c; d] ++ s).
      constructor.
      * apply (Matches_Repeat_base64Char 4). split; [reflexivity | ].
        repeat constructor; assumption.
      * apply IH; [lia | assumption].
Qed.

Lemma Matches_Star_Class (ranges : list (ascii * ascii)) (s : codeUnits) :
  Matches (Star (Class ranges)) s
  <-> Forall (fun u => inClass ranges u = true) s.
Proof.
  split.
  - intros H. remember (Star (Class ranges)) as r eqn:Hr.
    induction H; try discriminate; [constructor | ].
    injection Hr as ->.
    apply Matches_Class_inv in H as (u & -> & Hu).
    simpl. constructor; auto.
  - induction 1 as [ | u s Hu _ IH]; [constructor | ].
    change (u :: s) with ([u] ++ s). constructor; [now constructor | exact IH].
Qed.

Lemma Matches_Plus_base64Char (s : codeUnits) :
  Matches (Plus base64Char) s <-> s <> [] /\ Forall isBase64Char s.
Proof.
  unfold Plus. split.
  - intros H. apply Matches_Seq_inv in H as (s1 & t & -> & H1 & H2).
    apply Matches_Class_inv in H1 as (u & -> & Hu).
    apply Matches_Star_Class in H2.
    split; [discriminate | constructor; assumption].
  - intros [Hne Hall]. destruct s as [ | u s]; [contradiction | ].
    inversion Hall; subst.
    change (u :: s) with ([u] ++ s).
    constructor; [now constructor | now apply Matches_Star_Class].
Qed.

Lemma inClass_padSign (u : N) :
  inClass [("=", "=")]%char u = true <-> u = padSign.
Proof.
  unfold inClass, inRange, padSign; simpl. rewrite orb_false_r, andb_true_iff.
  rewrite !N.leb_le. lia.
Qed.

Lemma Matches_padding (s : codeUnits) :
  Matches (UpToTwo (Class [("=", "=")]%char)) s <-> isPadding s.
Proof.
  unfold UpToTwo, Optional, isPadding. split.
  - intros H. apply Matches_Alt_inv in H as [H | H].
    + apply Matches_Seq_inv in H as (s1 & t & -> & H1 & H2).
      apply Matches_Class_inv in H1 as (u & -> & Hu).
      apply inClass_padSign in Hu as ->.
      apply Matches_Alt_inv in H2 as [H2 | H2].
      * apply Matches_Class_inv in H2 as (v & -> & Hv).
        apply inClass_padSign in Hv as ->. auto.
      * apply Matches_Empty_inv in H2 as ->. auto.
    + apply Matches_Empty_inv in H as ->. auto.
  - assert (Hpad : Matches (Class [("=", "=")]%char) [padSign])
      by (constructor; now apply inClass_padSign).
    intros [-> | [-> | ->]].
    + apply MAltR. constructor.
    + apply MAltL. change [padSign] with ([padSign] ++ []).
      constructor; [exact Hpad | apply MAltR; constructor].
    + apply MAltL. change [padSign; padSign] with ([padSign] ++ [padSign]).
      constructor; [exact Hpad | now apply MAltL].
Qed.

(** The last [k] elements of a list that has them. *)
Lemma split_last (k : nat) (l : codeUnits) :
  (k <= length l)%nat ->
  exists l1 l2, l = l1 ++ l2 /\ length l2 = k /\ (length l1 = length l - k)%nat.
Proof.
  intros Hk. exists (firstn (length l - k) l), (skipn (length l - k) l).
  rewrite firstn_skipn, length_skipn, length_firstn. repeat split; lia.
Qed.

Lemma Matches_twoPadded_app (t : codeUnits) :
  Matches twoPadded t
  <-> exists t1, t = t1 ++ [padSign; padSign]
                 /\ length t1 = 2%nat /\ Forall isBase64Char t1.
Proof.
  unfold twoPadded. split.
  - intros H. apply Matches_Seq_inv in H as (s1 & t' & -> & H1 & H2).
    apply (Matches_Repeat_base64Char 2) in H1 as [Hlen Hall].
    apply Matches_Seq_inv in H2 as (t1 & t2 & -> & Ht1 & Ht2).
    apply Matches_Char_inv in Ht1 as ->. apply Matches_Char_inv in Ht2 as ->.
    exists s1. auto.
  - intros (t1 & -> & Hlen & Hall).
    constructor; [now apply (Matches_Repeat_base64Char 2) | ].
    change [padSign; padSign] with ([padSign] ++ [padSign]).
    constructor; constructor.
Qed.

Lemma Matches_onePadded_app (t : codeUnits) :
  Matches onePadded t
  <-> exists t1, t = t1 ++ [padSign]
                 /\ length t1 = 3%nat /\ Forall isBase64Char t1.
Proof.
  unfold onePadded. split.
  - intros H. apply Matches_Seq_inv in H as (s1 & t' & -> & H1 & H2).
    apply (Matches_Repeat_base64Char 3) in H1 as [Hlen Hall].
    apply Matches_Char_inv in H2 as ->.
    exists s1. auto.
  - intros (t1 & -> & Hlen & Hall).
    constructor; [now apply (Matches_Repeat_base64Char 3) | constructor].
Qed.

Lemma groups_then_last (b t : codeUnits) :
  Matches (Star (Repeat 4 base64Char)) b -> isLastGroup t ->
  wellFormed (b ++ t) /\ b ++ t <> [].
Proof.
  intros Hb Ht. apply Matches_groups in Hb as [[k Hk] Hall].
  destruct Ht as [Ht | [Ht | Ht]].
  - apply Matches_twoPadded_app in Ht as (t1 & -> & Hlen & Hall1).
    split; [ | intros H; apply (f_equal (@length N)) in H;
                rewrite !length_app in H; simpl in H; lia].
    split.
    + exists (S k). rewrite !length_app. simpl. lia.
    + exists (b ++ t1), [padSign; padSign].
      rewrite app_assoc. repeat split; [ | unfold isPadding; auto].
      apply Forall_app; auto.
  - apply Matches_onePadded_app in Ht as (t1 & -> & Hlen & Hall1).
    split; [ | intros H; apply (f_equal (@length N)) in H;
                rewrite !length_app in H; simpl in H; lia].
    split.
    + exists (S k). rewrite !length_app. simpl. lia.
    + exists (b ++ t1), [padSign].
      rewrite app_assoc. repeat split; [ | unfold isPadding; auto].
      apply Forall_app; auto.
  - apply (Matches_Repeat_base64Char 4) in Ht as [Hlen Hall1].
    split; [ | intros H; apply (f_equal (@length N)) in H;
                rewrite !length_app in H; simpl in H; lia].
    split.
    + exists (S k). rewrite !length_app. lia.
    + exists (b ++ t), []. rewrite app_nil_r.
      repeat split; [ | unfold isPadding; auto].
      apply Forall_app; auto.
Qed.

Lemma wellFormed_last (s : codeUnits) :
  wellFormed s -> s <> [] ->
  exists b t,
    s = b ++ t /\ Matches (Star (Repeat 4 base64Char)) b /\ isLastGroup t.
Proof.
  intros [[k Hk] (body & pad & -> & Hall & Hpad)] Hne.
  rewrite length_app in Hk.
  destruct Hpad as [-> | [-> | ->]]; simpl in Hk.
  - rewrite app_nil_r in *.
    assert (Hlen : (4 <= length body)%nat).
    { destruct body; [contradiction | simpl in *; lia]. }
    destruct (split_last 4 body Hlen) as (b & t & -> & Ht & Hb).
    apply Forall_app in Hall as [Hallb Hallt].
    exists b, t. split; [reflexivity | split].
    + apply Matches_groups. split; [exists (k - 1)%nat; lia | exact Hallb].
    + right; right. now apply (Matches_Repeat_base64Char 4).
  - assert (Hlen : (3 <= length body)%nat) by lia.
    destruct (split_last 3 body Hlen) as (b & t & -> & Ht & Hb).
    apply Forall_app in Hall as [Hallb Hallt].
    exists b, (t ++ [padSign]). rewrite app_assoc.
    split; [reflexivity | split].
    + apply Matches_groups. split; [exists (k - 1)%nat; lia | exact Hallb].
    + right; left. apply Matches_onePadded_app. eauto.
  - assert (Hlen : (2 <= length body)%nat) by lia.
    destruct (split_last 2 body Hlen) as (b & t & -> & Ht & Hb).
    apply Forall_app in Hall as [Hallb Hallt].
    exists b, (t ++ [padSign; padSign]). rewrite app_assoc.
    split; [reflexivity | split].
    + apply Matches_groups. split; [exists (k - 1)%nat; lia | exact Hallb].
    + left. apply Matches_twoPadded_app. eauto.
Qed.

Lemma wellFormed_nil : wellFormed [].
Proof.
  split; [exists 0%nat; reflexivity | ].
  exists [], []. repeat split; [constructor | unfold isPadding; auto].
Qed.

Lemma isBase64_Matches (s : codeUnits) :
  isBase64 s = true <-> wellFormed s /\ s <> [].
Proof.
  unfold isBase64. rewrite test_Matches. split.
  - intros H. apply Matches_Seq_inv in H as (b & t & -> & Hb & Ht).
    apply groups_then_last; [exact Hb | ].
    apply Matches_Alt_inv in Ht as [Ht | Ht]; [now left | ].
    apply Matches_Alt_inv in Ht as [Ht | Ht]; [right; now left | right; now right].
  - intros [Hwf Hne].
    destruct (wellFormed_last s Hwf Hne) as (b & t & -> & Hb & Ht).
    constructor; [exact Hb | ].
    destruct Ht as [Ht | [Ht | Ht]].
    + now apply MAltL.
    + apply MAltR. now apply MAltL.
    + apply MAltR. now apply MAltR.
Qed.

Lemma isValidBase64_Matches (s : codeUnits) :
  isValidBase64 s = true <-> wellFormed s.
Proof.
  unfold isValidBase64. cbv zeta. rewrite test_Matches. unfold Optional. split.
  - intros H. apply Matches_Seq_inv in H as (b & t & -> & Hb & Ht).
    apply Matches_Alt_inv in Ht as [Ht | Ht].
    + apply groups_then_last; [exact Hb | ].
      apply Matches_Alt_inv in Ht as [Ht | Ht]; [now left | right; now left].
    + apply Matches_Empty_inv in Ht as ->. rewrite app_nil_r.
      apply Matches_groups in Hb as [Hk Hall].
      split; [exact Hk | ].
      exists b, []. rewrite app_nil_r.
      repeat split; [exact Hall | unfold isPadding; auto].
  - intros Hwf. destruct s as [ | u s].
    + change (@nil N) with (@nil N ++ []).
      constructor; [constructor | apply MAltR; constructor].
    + destruct (wellFormed_last (u :: s) Hwf ltac:(discriminate))
        as (b & t & Heq & Hb & Ht).
      rewrite Heq. destruct Ht as [Ht | [Ht | Ht]].
      * constructor; [exact Hb | ]. apply MAltL. now apply MAltL.
      * constructor; [exact Hb | ]. apply MAltL. now apply MAltR.
      * rewrite <- (app_nil_r (b ++ t)).
        constructor; [ | apply MAltR; constructor].
        apply Matches_groups. apply Matches_groups in Hb as [[k Hk] Hall].
        apply (Matches_Repeat_base64Char 4) in Ht as [Hlen Hallt].
        split; [exists (S k); rewrite length_app; lia | ].
        apply Forall_app; auto.
Qed.

Lemma length_multiple_of_four (s : codeUnits) :
  (N.of_nat (length s) mod 4 =? 0)%N = true
  <-> (exists groups, length s = 4 * groups)%nat.
Proof.
  rewrite N.eqb_eq, N.Lcm0.mod_divide by discriminate. split.
  - intros [c Hc]. exists (N.to_nat c). lia.
  - intros [k Hk]. exists (N.of_nat k). lia.
Qed.

Lemma isPartOfBase64_Matches (s : codeUnits) :
  isPartOfBase64 s = true <-> wellFormed s /\ s <> [].
Proof.
  unfold isPartOfBase64.
  rewrite andb_true_iff, length_multiple_of_four, test_Matches. split.
  - intros [Hk H]. apply Matches_Seq_inv in H as (body & pad & -> & Hb & Hp).
    apply Matches_Plus_base64Char in Hb as [Hne Hall].
    apply Matches_padding in Hp.
    split; [split; [exact Hk | eauto] | ].
    destruct body; [contradiction | discriminate].
  - intros [[Hk (body & pad & -> & Hall & Hpad)] Hne].
    split; [exact Hk | ].
    constructor; [ | now apply Matches_padding].
    apply Matches_Plus_base64Char. split; [ | exact Hall].
    intros ->. destruct Hk as [k Hk].
    destruct Hpad as [-> | [-> | ->]]; simpl in *; [contradiction | lia | lia].
Qed.

(** ** The three checks compared *)

(** X17. isBase64 is isValidBase64 without the empty string: on every
    string the arrow function answers what the function answers, except
    that it rejects the empty string, which the function accepts. *)
Theorem isBase64_is_isValidBase64_nonempty (s : codeUnits) :
  isBase64 s = isValidBase64 s && negb (Nat.eqb (length s) 0).
Proof.
  apply eq_true_iff_eq.
  rewrite andb_true_iff, negb_true_iff, Nat.eqb_neq.
  rewrite isBase64_Matches, isValidBase64_Matches.
  rewrite length_zero_iff_nil. reflexivity.
Qed.

(** X18. isPartOfBase64, with its test of the length and its looser
    pattern, answers on every string what isBase64 answers. *)
Theorem isPartOfBase64_is_isBase64 (s : codeUnits) :
  isPartOfBase64 s = isBase64 s.
Proof.
  apply eq_true_iff_eq.
  now rewrite isPartOfBase64_Matches, isBase64_Matches.
Qed.

(** X16. isValidBase64 accepts exactly the strings whose length is a
    multiple of four and that consist of characters of the Base64
    alphabet followed by no, one or two padding signs. *)
Theorem isValidBase64_wellFormed (s : codeUnits) :
  isValidBase64 s = true
  <-> (exists groups, length s = 4 * groups)%nat
      /\ exists body pad,
           s = body ++ pad
           /\ Forall isBase64Char body
           /\ (pad = [] \/ pad = [padSign] \/ pad = [padSign; padSign]).
Proof. apply isValidBase64_Matches. Qed.

(** The calls the script makes, in its order (the comments beside the
    third and the fifth say true and false). *)
Example calls_of_the_script :
  isValidBase64 (unitsOf "SGVsbG8gV29ybGQ=") = true
  /\ isValidBase64 (unitsOf "KnojPP9hJzx/Rdu87s") = false
  /\ isBase64 (unitsOf "MIQKuhftkDwxfZU7pve/OoaXS7wO4R...") = false
  /\ isPartOfBase64 (unitsOf "MIQKuhftkDwxfZU7pve/OoaXS7wO4R...") = false
  /\ isValidBase64 (unitsOf "MIQKuhftkDwxfZU7pve/OoaXS7wO4R==") = true.
Proof. repeat split; vm_compute; reflexivity. Qed.

End Base64Facts.

(** * Facts about the modal *)

Module ModalFacts.
Import Modal.

Lemma click_on_button (page : Page) :
  click on_button page = mkPage false false.
Proof. reflexivity. Qed.

Lemma click_elsewhere (page : Page) :
  click elsewhere page
  = if backdrop_hidden page then page else mkPage true true.
Proof.
  unfold click, document_onclick. cbn.
  destruct (backdrop_hidden page); reflexivity.
Qed.

Lemma clicks_snoc (ts : list target) (t : target) (page : Page) :
  clicks (ts ++ [t]) page = click t (clicks ts page).
Proof. unfold clicks. now rewrite fold_left_app. Qed.

Lemma in_step_after_click (t : target) (page : Page) :
  backdrop_hidden page = popup_hidden page ->
  backdrop_hidden (click t page) = popup_hidden (click t page).
Proof.
  intros Hsync. destruct t; [reflexivity | ].
  rewrite click_elsewhere.
  destruct (backdrop_hidden page) eqn:Hb; [congruence | reflexivity].
Qed.

(** X19. From a page on which backdrop and popup are hidden or shown
    together, every session of clicks keeps them together: the modal is
    shown or closed as a whole, and after the last click it is shown if
    that click was on the button and closed if it was anywhere else. *)
Theorem modal_follows_last_click (ts : list target) (t : target) (page : Page) :
  backdrop_hidden page = popup_hidden page ->
  backdrop_hidden (clicks ts page) = popup_hidden (clicks ts page)
  /\ match t with
     | on_button => shown (clicks (ts ++ [t]) page)
     | elsewhere => closed (clicks (ts ++ [t]) page)
     end.
Proof.
  intros Hsync.
  assert (Hinv : forall ts', backdrop_hidden (clicks ts' page)
                             = popup_hidden (clicks ts' page)).
  { intros ts'. induction ts' as [ | t' ts' IH] using rev_ind; [exact Hsync | ].
    rewrite clicks_snoc. now apply in_step_after_click. }
  split; [apply Hinv | ].
  rewrite clicks_snoc. specialize (Hinv ts).
  destruct t.
  - split; reflexivity.
  - rewrite click_elsewhere. unfold closed.
    destruct (backdrop_hidden (clicks ts page)) eqn:Hb; [ | split; reflexivity].
    split; [exact Hb | now rewrite <- Hinv].
Qed.

(** X20. The handler of the document looks at the backdrop only: on a
    page whose backdrop is hidden, clicks outside the button change
    nothing, however many; a popup in view without its backdrop stays in
    view until the button is clicked. *)
Theorem clicks_elsewhere_without_backdrop (n : nat) (page : Page) :
  backdrop_hidden page = true ->
  clicks (repeat elsewhere n) page = page.
Proof.
  intros Hb. induction n as [ | n IH]; [reflexivity | ].
  replace (repeat elsewhere (S n)) with (repeat elsewhere n ++ [elsewhere])
    by (rewrite <- repeat_cons; reflexivity).
  rewrite clicks_snoc, IH, click_elsewhere. now rewrite Hb.
Qed.

Lemma clicks_elsewhere_without_backdrop_witness :
  backdrop_hidden (mkPage true false) = true
  /\ clicks (repeat elsewhere 3) (mkPage true false) = mkPage true false.
Proof.
  split; [reflexivity | ].
  exact (clicks_elsewhere_without_backdrop 3 (mkPage true false) eq_refl).
Defined.

Lemma modal_follows_last_click_witness :
  backdrop_hidden (mkPage true true) = popup_hidden (mkPage true true)
  /\ backdrop_hidden (clicks [on_button; elsewhere] (mkPage true true))
     = popup_hidden (clicks [on_button; elsewhere] (mkPage true true))
  /\ shown (clicks ([on_button; elsewhere] ++ [on_button]) (mkPage true true)).
Proof.
  split; [reflexivity | ].
  exact (modal_follows_last_click [on_button; elsewhere] on_button
           (mkPage true true) eq_refl).
Defined.

End ModalFacts.

(** * Facts about the memoized fibonacci *)

Module MemoizeFacts.
Import Memoize.

Lemma append_length (x y : string) :
  String.length (x ++ y) = (String.length x + String.length y)%nat.
Proof. induction x as [| c x IH]; simpl; [reflexivity | now rewrite IH]. Qed.

Lemma append_cancel_r (x y z : string) :
  (x ++ z = y ++ z)%string -> x = y.
Proof.
  intros H.
  assert (Hlen : String.length x = String.length y).
  { apply (f_equal String.length) in H.
    rewrite !append_length in H. lia. }
  revert y H Hlen.
  induction x as [| c x IH]; intros [| d y] H Hlen; simpl in *;
    try discriminate; trivial.
  injection H as -> H. f_equal. apply IH; [exact H | lia].
Qed.

Lemma NumberToString_injective (n m : Z) :
  NumberToString n = NumberToString m -> n = m.
Proof.
  intros H.
  assert (Hn : option_map Z.of_int (NilZero.int_of_string (NumberToString n)) = Some n).
  { unfold NumberToString. rewrite NilZero.isi.
    - simpl. now rewrite DecimalZ.of_to.
    - destruct n; simpl; try discriminate.
      intros [= E]. now apply (Unsigned.to_uint_nonnil p).
    - destruct n; simpl; try discriminate.
      intros [= E]. now apply (Unsigned.to_uint_nonnil p). }
  assert (Hm : option_map Z.of_int (NilZero.int_of_string (NumberToString m)) = Some m).
  { unfold NumberToString. rewrite NilZero.isi.
    - simpl. now rewrite DecimalZ.of_to.
    - destruct m; simpl; try discriminate.
      intros [= E]. now apply (Unsigned.to_uint_nonnil p).
    - destruct m; simpl; try discriminate.
      intros [= E]. now apply (Unsigned.to_uint_nonnil p). }
  rewrite H in Hn. congruence.
Qed.

Lemma JSON_stringify_injective (n m : Z) :
  JSON_stringify [n] = JSON_stringify [m] -> n = m.
Proof.
  unfold JSON_stringify, join. cbn [map String.concat].
  intros H. apply NumberToString_injective.
  change ("[" ++ NumberToString n ++ "]")%string
    with (String "[" (NumberToString n ++ "]")) in H.
  change ("[" ++ NumberToString m ++ "]")%string
    with (String "[" (NumberToString m ++ "]")) in H.
  injection H as H. now apply append_cancel_r in H.
Qed.

Lemma key_eqb (n m : Z) :
  String.eqb (JSON_stringify [n]) (JSON_stringify [m]) = (n =? m).
Proof.
  destruct (Z.eqb_spec n m) as [-> | Hne].
  - apply String.eqb_refl.
  - apply String.eqb_neq. intros H. now apply JSON_stringify_injective in H.
Qed.

Lemma Map_get_set_same (c : Map) (k : string) (v : Z) :
  Map_get (Map_set c k v) k = Some v.
Proof.
  induction c as [| [k' v'] c IH]; simpl.
  - now rewrite String.eqb_refl.
  - destruct (String.eqb k' k) eqn:E; simpl; rewrite E; trivial.
Qed.

Lemma Map_get_set_other (c : Map) (k k' : string) (v : Z) :
  k <> k' -> Map_get (Map_set c k v) k' = Map_get c k'.
Proof.
  intros Hne. induction c as [| [k0 v0] c IH]; simpl.
  - apply String.eqb_neq in Hne. now rewrite Hne.
  - destruct (String.eqb k0 k) eqn:E; simpl.
    + apply String.eqb_eq in E. subst k0.
      apply String.eqb_neq in Hne. now rewrite Hne.
    + now rewrite IH.
Qed.

Lemma Map_set_absent (c : Map) (k : string) (v : Z) :
  Map_get c k = None -> Map_set c k v = c ++ [(k, v)].
Proof.
  induction c as [| [k0 v0] c IH]; simpl; trivial.
  destruct (String.eqb k0 k); [discriminate |].
  intros H. now rewrite IH.
Qed.

Lemma Map_get_app (c c' : Map) (k : string) :
  Map_get (c ++ c') k =
  match Map_get c k with Some v => Some v | None => Map_get c' k end.
Proof.
  induction c as [| [k0 v0] c IH]; simpl; trivial.
  now destruct (String.eqb k0 k).
Qed.

Lemma fib_step (n : nat) : fib (S (S n)) = fib (S n) + fib n.
Proof.
  unfold fib. cbn [fib_pair]. destruct (fib_pair n) as [a b]. cbn [fst]. lia.
Qed.

Lemma fib_pair_ordered (n : nat) :
  0 <= fst (fib_pair n) <= snd (fib_pair n).
Proof.
  induction n as [| n IH]; cbn [fib_pair]; [cbn; lia |].
  destruct (fib_pair n) as [a b]. cbn [fst snd] in *. lia.
Qed.

Lemma fib_S_le (n : nat) : 0 <= fib n <= fib (S n).
Proof.
  pose proof (fib_pair_ordered n) as H. unfold fib. cbn [fib_pair].
  destruct (fib_pair n) as [a b]. cbn [fst snd] in *. lia.
Qed.

Lemma fib_monotone (n m : nat) : (n <= m)%nat -> fib n <= fib m.
Proof.
  induction 1 as [| m _ IH]; [lia |].
  pose proof (fib_S_le m). lia.
Qed.

(** Up to the argument 78 every value is a safe integer, so that the
    additions of the method are exact. *)
Lemma fibonacci_value_safe (n : Z) :
  - maxSafeInteger <= n <= 78 -> isSafeInteger (fibonacci_value n).
Proof.
  intros Hn. unfold isSafeInteger, fibonacci_value.
  destruct (Z.leb_spec n 1) as [H1 | H1].
  - unfold maxSafeInteger in *. lia.
  - pose proof (fib_S_le (Z.to_nat n)) as [H0 _].
    assert (H78 : fib (Z.to_nat n) <= fib 78) by (apply fib_monotone; lia).
    assert (E : fib 78 <= maxSafeInteger) by (vm_compute; discriminate).
    lia.
Qed.

Lemma fibonacci_value_step (n : Z) :
  1 < n -> fibonacci_value n = fibonacci_value (n - 1) + fibonacci_value (n - 2).
Proof.
  intros Hn. unfold fibonacci_value.
  destruct (Z.leb_spec n 1); [lia |].
  replace (Z.to_nat n) with (S (S (Z.to_nat (n - 2)))) by lia.
  rewrite fib_step.
  replace (Z.to_nat (n - 1)) with (S (Z.to_nat (n - 2))) by lia.
  destruct (Z.leb_spec (n - 1) 1) as [H1 | H1];
    destruct (Z.leb_spec (n - 2) 1) as [H2 | H2]; try lia.
  - assert (n = 2) by lia. subst n. reflexivity.
  - assert (n = 3) by lia. subst n. reflexivity.
Qed.

Lemma cacheSound_set (c : Map) (n : Z) :
  cacheSound c -> cacheSound (Map_set c (JSON_stringify [n]) (fibonacci_value n)).
Proof.
  intros Hc m v.
  destruct (Z.eq_dec n m) as [-> | Hne].
  - rewrite Map_get_set_same. congruence.
  - rewrite Map_get_set_other.
    + apply Hc.
    + intros H. now apply JSON_stringify_injective in H.
Qed.

(** The decorated method returns the value of its argument and keeps the
    cache sound. *)
Lemma MathOperations_fibonacci_sound (depth : nat) :
  forall (n : Z) (s : State),
    (Z.to_nat n < depth)%nat ->
    cacheSound (cache s) ->
    exists s',
      MathOperations_fibonacci depth n s = Some (fibonacci_value n, s') /\
      cacheSound (cache s') /\
      Map_get (cache s') (JSON_stringify [n]) = Some (fibonacci_value n).
Proof.
  induction depth as [| depth IH]; intros n s Hd Hs; [lia |].
  cbn [MathOperations_fibonacci]. unfold memoize.
  destruct (Map_get (cache s) (JSON_stringify [n])) as [cached |] eqn:Hget.
  - pose proof (Hs n cached Hget) as ->.
    eexists. split; [reflexivity |]. split; [exact Hs | exact Hget].
  - unfold fibonacci.
    destruct (Z.leb_spec n 1) as [Hn | Hn].
    + assert (Hv : fibonacci_value n = n).
      { unfold fibonacci_value. destruct (Z.leb_spec n 1); [trivial | lia]. }
      eexists. rewrite Hv. split; [reflexivity |].
      cbn [cache cache_set console_log]. split.
      * rewrite <- Hv at 2. now apply cacheSound_set.
      * apply Map_get_set_same.
    + destruct (IH (n - 1) (console_log (CacheMiss "fibonacci" (JSON_stringify [n])) s))
        as (s1 & E1 & Hs1 & _); [lia | exact Hs |].
      rewrite E1.
      destruct (IH (n - 2) s1) as (s2 & E2 & Hs2 & _); [lia | exact Hs1 |].
      rewrite E2.
      rewrite <- fibonacci_value_step by lia.
      eexists. split; [reflexivity |].
      cbn [cache cache_set]. split.
      * now apply cacheSound_set.
      * apply Map_get_set_same.
Qed.

Lemma Map_get_entries (l : list nat) (j : nat) :
  Map_get (map entry l) (JSON_stringify [Z.of_nat j]) =
  if existsb (Nat.eqb j) l then Some (fib j) else None.
Proof.
  induction l as [| i l IH]; cbn [map Map_get existsb]; trivial.
  unfold entry at 1. rewrite key_eqb.
  destruct (Z.eqb_spec (Z.of_nat i) (Z.of_nat j)) as [E | E].
  - apply Nat2Z.inj in E. subst i. now rewrite Nat.eqb_refl.
  - destruct (Nat.eqb_spec j i) as [-> | _]; [congruence |]. exact IH.
Qed.

Lemma Map_get_cache_after (k j : nat) :
  Map_get (cache_after k) (JSON_stringify [Z.of_nat j]) =
  if (j <=? k + 2)%nat then Some (fib j) else None.
Proof.
  unfold cache_after. rewrite Map_get_entries.
  destruct (Nat.leb_spec j (k + 2)) as [H | H].
  - replace (existsb (Nat.eqb j) (1 :: 0 :: seq 2 (S k))%nat) with true; trivial.
    symmetry. apply existsb_exists. exists j. split; [| apply Nat.eqb_refl].
    destruct j as [| [| j]]; simpl; auto.
    right. right. apply (in_seq (S k) 2 (S (S j))). lia.
  - destruct (existsb (Nat.eqb j) (1 :: 0 :: seq 2 (S k))%nat) eqn:E; trivial.
    apply existsb_exists in E. destruct E as (i & Hi & Hji).
    apply Nat.eqb_eq in Hji. subst i.
    destruct Hi as [Hi | [Hi | Hi]]; try lia.
    apply in_seq in Hi. lia.
Qed.

Lemma cache_after_S (k : nat) :
  cache_after (S k) = cache_after k ++ [entry (k + 3)].
Proof.
  unfold cache_after. rewrite (seq_S (S k) 2).
  replace (2 + S k)%nat with (k + 3)%nat by lia.
  cbn [map]. rewrite map_app. reflexivity.
Qed.

Lemma missed_S (k : nat) :
  missed (S k) = CacheMiss "fibonacci" (JSON_stringify [Z.of_nat (k + 3)]) :: missed k.
Proof.
  unfold missed. replace (S k + 3)%nat with (S (k + 3)) by lia.
  rewrite seq_S, rev_app_distr. cbn [rev app map Nat.add]. reflexivity.
Qed.

Lemma answered_S (k : nat) :
  answered (S k) = answered k ++ [CacheHit "fibonacci" (JSON_stringify [Z.of_nat (k + 1)])].
Proof.
  unfold answered. rewrite seq_S, map_app. cbn [map].
  now replace (1 + k)%nat with (k + 1)%nat by lia.
Qed.

(** A first call, step by step: from an empty cache the call with
    argument k + 2 misses at k + 2, ..., 0, then hits at 1, ..., k. *)
Lemma first_call (k : nat) :
  forall (depth : nat) (out : list line),
    (k + 2 <= depth)%nat ->
    MathOperations_fibonacci depth (Z.of_nat (k + 2))
      {| cache := []; console := out |} =
    Some (fib (k + 2),
          {| cache := cache_after k;
             console := out ++ missed k ++ answered k |}).
Proof.
  induction k as [| k IH]; intros depth out Hd.
  - destruct depth as [| [| depth]]; try lia.
    cbn. unfold cache_set, console_log. cbn.
    rewrite <- !app_assoc. reflexivity.
  - destruct depth as [| depth]; [lia |].
    cbn [MathOperations_fibonacci]. unfold memoize at 1.
    cbn [cache Map_get]. unfold fibonacci at 1.
    destruct (Z.leb_spec (Z.of_nat (S k + 2)) 1) as [H | _]; [lia |].
    replace (Z.of_nat (S k + 2) - 1) with (Z.of_nat (k + 2)) by lia.
    unfold console_log at 1. cbn [cache console].
    rewrite IH by lia.
    replace (Z.of_nat (S k + 2) - 2) with (Z.of_nat (k + 1)) by lia.
    destruct depth as [| depth]; [lia |].
    cbn [MathOperations_fibonacci]. unfold memoize at 1.
    cbn [cache]. rewrite Map_get_cache_after.
    destruct (Nat.leb_spec (k + 1) (k + 2)) as [_ | H]; [| lia].
    unfold cache_set, console_log. cbn [cache console].
    rewrite Map_set_absent.
    + rewrite cache_after_S, missed_S, answered_S. unfold entry.
      replace (S k + 2)%nat with (k + 3)%nat by lia.
      assert (Hfib : fib (k + 3) = fib (k + 2) + fib (k + 1)).
      { replace (k + 3)%nat with (S (S (k + 1))) by lia.
        rewrite fib_step. now replace (S (k + 1)) with (k + 2)%nat by lia. }
      rewrite Hfib, <- !app_assoc. reflexivity.
    + rewrite Map_get_cache_after.
      destruct (Nat.leb_spec (S k + 2) (k + 2)); [lia | reflexivity].
Qed.

Lemma extends_refl (s : State) : extends s s.
Proof. split; [trivial | exists []; now rewrite app_nil_r]. Qed.

Lemma extends_trans (s1 s2 s3 : State) :
  extends s1 s2 -> extends s2 s3 -> extends s1 s3.
Proof.
  intros [Hc1 [l1 Hl1]] [Hc2 [l2 Hl2]]. split; [auto |].
  exists (l1 ++ l2). now rewrite Hl2, Hl1, app_assoc.
Qed.

Lemma extends_console_log (l : line) (s : State) : extends s (console_log l s).
Proof. split; [trivial | now exists [l]]. Qed.

(** The wrapper keeps what the wrapped method keeps: an entry that is
    there is not set again. *)
Lemma memoize_extends (propertyKey : string) (originalMethod : method) :
  (forall n s r s', originalMethod n s = Some (r, s') -> extends s s') ->
  forall n s r s',
    memoize propertyKey originalMethod n s = Some (r, s') -> extends s s'.
Proof.
  intros Hm n s r s'. unfold memoize.
  destruct (Map_get (cache s) (JSON_stringify [n])) as [cached |] eqn:Hget.
  - intros [= _ <-]. apply extends_console_log.
  - destruct (originalMethod n _) as [[result s1] |] eqn:E; [| discriminate].
    intros [= _ <-]. apply Hm in E.
    pose proof (extends_trans _ _ _ (extends_console_log _ s) E) as [Hc Hl].
    split; [| exact Hl].
    intros key v Hv. cbn [cache cache_set].
    rewrite Map_get_set_other; [now apply Hc |].
    intros <-. congruence.
Qed.

Lemma fibonacci_extends (this_fibonacci : method) :
  (forall n s r s', this_fibonacci n s = Some (r, s') -> extends s s') ->
  forall n s r s',
    fibonacci this_fibonacci n s = Some (r, s') -> extends s s'.
Proof.
  intros Hm n s r s'. unfold fibonacci.
  destruct (n <=? 1).
  - intros [= _ <-]. apply extends_refl.
  - destruct (this_fibonacci (n - 1) s) as [[a s1] |] eqn:E1; [| discriminate].
    destruct (this_fibonacci (n - 2) s1) as [[b s2] |] eqn:E2; [| discriminate].
    intros [= _ <-]. eapply extends_trans; eauto.
Qed.

Lemma filter_isMiss_missed (l : list nat) :
  filter isMiss (map (fun i => CacheMiss "fibonacci" (JSON_stringify [Z.of_nat i])) l)
  = map (fun i => CacheMiss "fibonacci" (JSON_stringify [Z.of_nat i])) l.
Proof. induction l as [| i l IH]; cbn [map filter isMiss]; [| rewrite IH]; reflexivity. Qed.

Lemma filter_isMiss_answered (l : list nat) :
  filter isMiss (map (fun i => CacheHit "fibonacci" (JSON_stringify [Z.of_nat i])) l)
  = [].
Proof. induction l as [| i l IH]; cbn [map filter isMiss]; trivial. Qed.

Lemma filter_isHit_missed (l : list nat) :
  filter (fun l0 => negb (isMiss l0))
    (map (fun i => CacheMiss "fibonacci" (JSON_stringify [Z.of_nat i])) l)
  = [].
Proof. induction l as [| i l IH]; cbn [map filter isMiss negb]; trivial. Qed.

Lemma filter_isHit_answered (l : list nat) :
  filter (fun l0 => negb (isMiss l0))
    (map (fun i => CacheHit "fibonacci" (JSON_stringify [Z.of_nat i])) l)
  = map (fun i => CacheHit "fibonacci" (JSON_stringify [Z.of_nat i])) l.
Proof.
  induction l as [| i l IH]; cbn [map filter isMiss negb]; [| rewrite IH]; reflexivity.
Qed.

(** X21. Called with an integer n of at most 78 on a cache that is
    sound, the decorated fibonacci returns: n itself up to 1, the n-th
    Fibonacci number above.  The result is a safe integer, and the cache
    it leaves is sound again and has an entry for n. *)
Theorem fibonacci_returns_the_value (depth : nat) (n : Z) (s : State) :
  - maxSafeInteger <= n <= 78 ->
  (Z.to_nat n < depth)%nat ->
  cacheSound (cache s) ->
  exists s',
    MathOperations_fibonacci depth n s = Some (fibonacci_value n, s') /\
    isSafeInteger (fibonacci_value n) /\
    cacheSound (cache s') /\
    Map_get (cache s') (JSON_stringify [n]) = Some (fibonacci_value n).
Proof.
  intros Hn Hd Hs.
  destruct (MathOperations_fibonacci_sound depth n s Hd Hs) as (s' & E & Hs' & Hg).
  exists s'. repeat split; trivial. now apply fibonacci_value_safe.
Qed.

Lemma fibonacci_returns_the_value_witness :
  exists s',
    MathOperations_fibonacci 11 10 fresh = Some (55, s') /\
    isSafeInteger 55 /\
    cacheSound (cache s') /\
    Map_get (cache s') (JSON_stringify [10]) = Some 55.
Proof.
  apply (fibonacci_returns_the_value 11 10 fresh).
  - vm_compute. split; discriminate.
  - vm_compute. lia.
  - intros n v H. discriminate H.
Defined.

(** X22. Once a call of a memoized method has returned, the next call
    with the same argument returns the same result from the cache: it
    logs one hit, leaves the cache as it is and does not run the method,
    whatever the method is. *)
Theorem memoize_second_call_hits
    (propertyKey : string) (originalMethod other : method)
    (n r : Z) (s s' : State) :
  memoize propertyKey originalMethod n s = Some (r, s') ->
  memoize propertyKey other n s' =
  Some (r, console_log (CacheHit propertyKey (JSON_stringify [n])) s').
Proof.
  unfold memoize.
  destruct (Map_get (cache s) (JSON_stringify [n])) as [cached |] eqn:Hget.
  - intros [= <- <-]. cbn [cache console_log]. now rewrite Hget.
  - destruct (originalMethod n _) as [[result s1] |]; [| discriminate].
    intros [= <- <-]. cbn [cache cache_set].
    now rewrite Map_get_set_same.
Qed.

Lemma memoize_second_call_hits_witness :
  exists s',
    memoize "fibonacci" (fibonacci (MathOperations_fibonacci 2)) 3 fresh
    = Some (2, s') /\
    memoize "fibonacci" (fun _ _ => None) 3 s' =
    Some (2, console_log (CacheHit "fibonacci" (JSON_stringify [3])) s').
Proof.
  eexists. split; [reflexivity |].
  apply (memoize_second_call_hits "fibonacci"
           (fibonacci (MathOperations_fibonacci 2)) (fun _ _ => None)
           3 2 fresh).
  reflexivity.
Defined.

(** X23. The first call on a fresh cache does linear work: for an
    integer n from 2 to 78 the body of the method runs n + 1 times (one
    miss for each of n, ..., 0), n - 2 calls are answered from the cache,
    and the cache ends with n + 1 entries. *)
Theorem first_call_is_linear (depth : nat) (n : Z) :
  2 <= n <= 78 ->
  (Z.to_nat n <= depth)%nat ->
  exists s',
    MathOperations_fibonacci depth n fresh = Some (fibonacci_value n, s') /\
    misses s' = n + 1 /\
    hits s' = n - 2 /\
    Z.of_nat (length (cache s')) = n + 1.
Proof.
  intros Hn Hd.
  pose proof (first_call (Z.to_nat n - 2) depth [] ltac:(lia)) as E.
  replace (Z.to_nat n - 2 + 2)%nat with (Z.to_nat n) in E by lia.
  rewrite Z2Nat.id in E by lia.
  eexists. split.
  - unfold fresh, fibonacci_value.
    destruct (Z.leb_spec n 1); [lia | exact E].
  - unfold misses, hits, missed, answered, cache_after. cbn [console cache app].
    rewrite !filter_app, filter_isMiss_missed, filter_isMiss_answered,
      filter_isHit_missed, filter_isHit_answered.
    rewrite app_nil_r. cbn [app].
    rewrite ?length_map, ?length_rev, ?length_seq. cbn [length].
    rewrite ?length_seq. lia.
Qed.

Lemma first_call_is_linear_witness :
  exists s',
    MathOperations_fibonacci 10 10 fresh = Some (55, s') /\
    misses s' = 10 + 1 /\
    hits s' = 10 - 2 /\
    Z.of_nat (length (cache s')) = 10 + 1.
Proof.
  apply (first_call_is_linear 10 10); [lia | vm_compute; lia].
Defined.

(** X24. A call of the decorated fibonacci that returns has removed
    nothing: every entry the cache had is still there with its value, and
    the console has only grown. *)
Theorem cache_entries_persist (depth : nat) :
  forall (n r : Z) (s s' : State),
    MathOperations_fibonacci depth n s = Some (r, s') ->
    extends s s'.
Proof.
  induction depth as [| depth IH]; intros n r s s'; [discriminate |].
  cbn [MathOperations_fibonacci].
  apply memoize_extends. apply fibonacci_extends.
  intros n0 s0 r0 s0'. apply IH.
Qed.

Lemma cache_entries_persist_witness :
  extends {| cache := [(JSON_stringify [7], 13)]; console := [] |}
          {| cache := [(JSON_stringify [7], 13); (JSON_stringify [1], 1);
                       (JSON_stringify [0], 0); (JSON_stringify [2], 1)];
             console := [CacheMiss "fibonacci" (JSON_stringify [2]);
                         CacheMiss "fibonacci" (JSON_stringify [1]);
                         CacheMiss "fibonacci" (JSON_stringify [0])] |}.
Proof.
  apply (cache_entries_persist 2 2 1). reflexivity.
Defined.

End MemoizeFacts.
